(** * lex-with-regexps: a shallow embedding of [src/index.js]

    The library tokenizes a string with a set of regular expressions.  Its
    five functions ([buildLexerRegExp], [matchNext], [nextLocation], the
    [SyntaxError] constructor and [lex]) are embedded below, function by
    function.  The host facilities they call ([RegExp] construction and
    [RegExp.prototype.exec] with the flags [sy], [String.prototype.split],
    [lastIndexOf], [repeat], [Object.keys]) are embedded after ECMA-262, for
    the fragment of the pattern language described in Part 2.

    Conventions.
    - A JavaScript string is the list of its code units; code units are
      modelled by [ascii] (the Latin-1 range).
    - A JavaScript integer number is a [Z]: every number the library computes
      is an index, a line or a column bounded by the source length.
    - A [while] loop is a function with a fuel argument counting iterations;
      running out of fuel is a separate outcome, never a result. *)

From Stdlib Require Import List Ascii String ZArith Lia Bool Arith PeanoNat.
From Stdlib Require Import DecimalString.
Import ListNotations.

Open Scope Z_scope.

(* ================================================================== *)
(** * Part 1. Strings, locations and errors *)
(* ================================================================== *)

Definition jsstring := list ascii.

(** [str "abc"] is the JavaScript string literal ["abc"]. *)
Definition str (s : string) : jsstring := list_ascii_of_string s.
Arguments str s%_string.

Definition NL : ascii := "010"%char.

(** [s.length] *)
Definition len (s : jsstring) : Z := Z.of_nat (List.length s).

(** [s.substring(i, j)] for [0 <= i <= j]. *)
Definition substring (s : jsstring) (i j : nat) : jsstring :=
  firstn (j - i) (skipn i s).

(** [text.match(/\n/g)]: the array of all matches, or [null] when there is
    none. *)
Definition matchNewlines (text : jsstring) : option (list jsstring) :=
  match filter (Ascii.eqb NL) text with
  | [] => None
  | l => Some (map (fun c => [c]) l)
  end.

(** [text.lastIndexOf(c)]: scanning left to right, [acc] keeps the last
    position seen so far, [-1] when there is none. *)
Fixpoint lastIndexOf_from (c : ascii) (text : jsstring) (i acc : Z) : Z :=
  match text with
  | [] => acc
  | x :: rest =>
      lastIndexOf_from c rest (i + 1) (if Ascii.eqb x c then i else acc)
  end.

Definition lastIndexOf (text : jsstring) (c : ascii) : Z :=
  lastIndexOf_from c text 0 (-1).

(** [s.split(c)] *)
Fixpoint split (c : ascii) (s : jsstring) : list jsstring :=
  match s with
  | [] => [[]]
  | x :: rest =>
      if Ascii.eqb x c then [] :: split c rest
      else match split c rest with
           | l :: ls => (x :: l) :: ls
           | [] => [[x]]
           end
  end.

(** [buf.join(sep)] *)
Fixpoint join (sep : jsstring) (buf : list jsstring) : jsstring :=
  match buf with
  | [] => []
  | [s] => s
  | s :: rest => s ++ sep ++ join sep rest
  end.

(** Number to string, as a template literal does it for an integer. *)
Definition numToString (z : Z) : jsstring :=
  str (NilZero.string_of_int (Z.to_int z)).

Record Location := mkLoc { index : Z; line : Z; column : Z }.

(** ** [nextLocation] (index.js, lines 24-35) *)

Definition nextLocation (loc : Location) (text : jsstring) : Location :=
  let index' := index loc + len text in
  let line' :=
    line loc + match matchNewlines text with
               | Some arr => Z.of_nat (List.length arr)
               | None => 0
               end in
  let lastNewlineIndex := lastIndexOf text NL in
  let column' :=
    if lastNewlineIndex >=? 0
    then len text - lastNewlineIndex
    else column loc + len text in
  mkLoc index' line' column'.

(** ** Exceptions *)

(** The module's own [SyntaxError] class: an [Error] with a message and the
    two fields [loc] and [src]. *)
Record SyntaxError := mkSyntaxError {
  message : jsstring;
  err_loc : Location;
  err_src : jsstring
}.

(** What the code can throw.  [RegExpSyntaxError] is the built-in syntax
    error of the [RegExp] constructor (the spec's [PatternError]);
    [TypeError] comes from [Object.keys(undefined)]; [RangeError] from
    [String.prototype.repeat] with a negative count. *)
Inductive exn :=
| RegExpSyntaxError
| TypeError
| RangeError
| LexSyntaxError (e : SyntaxError).

(** The outcome of running a piece of the program: it returns, throws, is
    still running when the fuel is spent, or leaves the modelled fragment of
    the pattern language. *)
Inductive result (A : Type) :=
| Return (a : A)
| Throw (e : exn)
| OutOfFuel
| NotModelled.
Arguments Return {A} a.
Arguments Throw {A} e.
Arguments OutOfFuel {A}.
Arguments NotModelled {A}.

(** [" ".repeat(n)] *)
Definition repeatSpace (n : Z) : result jsstring :=
  if n <? 0 then Throw RangeError
  else Return (repeat " "%char (Z.to_nat n)).

(** [arr[i]] inside a template literal: an absent element prints as
    [undefined]. *)
Definition elementText (arr : list jsstring) (i : Z) : jsstring :=
  if i <? 0 then str "undefined"
  else match nth_error arr (Z.to_nat i) with
       | Some l => l
       | None => str "undefined"
       end.

(** ** [new SyntaxError(loc, src, msg)] (index.js, lines 37-45) *)

Definition newSyntaxError (loc : Location) (src msg : jsstring)
  : result SyntaxError :=
  let lineText := elementText (split NL src) (line loc - 1) in
  match repeatSpace (column loc - 1) with
  | Return spaces =>
      let marker := spaces ++ str "^" in
      Return (mkSyntaxError
                (numToString (line loc) ++ str ":" ++ numToString (column loc)
                 ++ str ": " ++ msg ++ [NL] ++ lineText ++ [NL] ++ marker)
                loc src)
  | Throw e => Throw e
  | OutOfFuel => OutOfFuel
  | NotModelled => NotModelled
  end.

(* ================================================================== *)
(** * Part 2. The pattern language of [new RegExp(pattern, "sy")] *)
(* ================================================================== *)

(** The constructor either compiles the pattern, throws a syntax error, or
    meets a construct that this development does not model (lookaround,
    back-references, braces, [\b], [\x], [\u], non-ASCII group names): every
    pattern is sorted into exactly one of the three, and nothing is claimed
    about the third. *)
Inductive parse (A : Type) :=
| Parsed (a : A)
| Rejected
| Unmodelled.
Arguments Parsed {A} a.
Arguments Rejected {A}.
Arguments Unmodelled {A}.

Definition pbind {A B} (p : parse A) (f : A -> parse B) : parse B :=
  match p with
  | Parsed a => f a
  | Rejected => Rejected
  | Unmodelled => Unmodelled
  end.

(** ** Character sets *)

Inductive builtin := Digit | Word | Space.

Inductive citem :=
| CIChar (c : ascii)
| CIRange (lo hi : ascii)
| CIBuiltin (neg : bool) (b : builtin).

(** What one atom of a pattern accepts: a literal, [.] (any code unit, since
    the flag [s] is set), a class escape such as [\d], or a bracketed class. *)
Inductive charset :=
| CSChar (c : ascii)
| CSAny
| CSBuiltin (neg : bool) (b : builtin)
| CSClass (neg : bool) (items : list citem).

Definition code (c : ascii) : nat := nat_of_ascii c.

Definition between (lo hi n : nat) : bool :=
  (Nat.leb lo n && Nat.leb n hi)%bool.

Definition isDigit (c : ascii) : bool := between 48 57 (code c).
Definition isUpper (c : ascii) : bool := between 65 90 (code c).
Definition isLower (c : ascii) : bool := between 97 122 (code c).
Definition isAlpha (c : ascii) : bool := (isUpper c || isLower c)%bool.
Definition isWordChar (c : ascii) : bool :=
  (isAlpha c || isDigit c || Ascii.eqb c "_")%bool.
(** White space and line terminators of the Latin-1 range. *)
Definition isSpace (c : ascii) : bool :=
  (between 9 13 (code c) || Nat.eqb (code c) 32 || Nat.eqb (code c) 160)%bool.

Definition builtin_mem (b : builtin) (c : ascii) : bool :=
  match b with
  | Digit => isDigit c
  | Word => isWordChar c
  | Space => isSpace c
  end.

Definition citem_mem (i : citem) (c : ascii) : bool :=
  match i with
  | CIChar x => Ascii.eqb c x
  | CIRange lo hi => between (code lo) (code hi) (code c)
  | CIBuiltin neg b => xorb neg (builtin_mem b c)
  end.

Definition charset_mem (cs : charset) (c : ascii) : bool :=
  match cs with
  | CSChar x => Ascii.eqb c x
  | CSAny => true
  | CSBuiltin neg b => xorb neg (builtin_mem b c)
  | CSClass neg items => xorb neg (existsb (fun i => citem_mem i c) items)
  end.

(** ** Abstract syntax *)

Inductive assertion := AStart | AEnd.

Inductive regex :=
| REmpty
| RSet (cs : charset)
| RAssert (a : assertion)
| RSeq (r1 r2 : regex)
| RAlt (r1 r2 : regex)
| RRepeat (min : nat) (max : option nat) (greedy : bool) (r : regex)
| RGroup (name : option jsstring) (r : regex).

(** The names of the named groups, in the order of their opening
    parentheses: the key order of [match.groups]. *)
Fixpoint groupNames (r : regex) : list jsstring :=
  match r with
  | REmpty | RSet _ | RAssert _ => []
  | RSeq r1 r2 | RAlt r1 r2 => groupNames r1 ++ groupNames r2
  | RRepeat _ _ _ r1 => groupNames r1
  | RGroup (Some n) r1 => n :: groupNames r1
  | RGroup None r1 => groupNames r1
  end.

(** ** Tokens of a pattern *)

Inductive quantifier := QStar | QPlus | QOpt.

Inductive token :=
| TAtom (cs : charset)
| TAssert (a : assertion)
| TOpen (name : option jsstring)   (* [(], [(?:] or [(?<name>] *)
| TClose
| TBar
| TQuant (q : quantifier).

(** The atoms between [[] and []], before ranges are formed. *)
Inductive catom :=
| CAChar (c : ascii)
| CADash                           (* an unescaped [-] *)
| CASet (neg : bool) (b : builtin).

Definition catomChar (a : catom) : option ascii :=
  match a with
  | CAChar c => Some c
  | CADash => Some "-"%char
  | CASet _ _ => None
  end.

Definition catomItem (a : catom) : citem :=
  match a with
  | CAChar c => CIChar c
  | CADash => CIChar "-"%char
  | CASet neg b => CIBuiltin neg b
  end.

(** ClassRanges: [a-b] is a range when both ends are single characters in
    order; a dash with nothing on one side is a literal dash. *)
Fixpoint resolveRanges (l : list catom) : parse (list citem) :=
  match l with
  | [] => Parsed []
  | a :: rest =>
      match rest with
      | CADash :: b :: rest' =>
          match catomChar a, catomChar b with
          | Some lo, Some hi =>
              if Nat.leb (code lo) (code hi)
              then pbind (resolveRanges rest')
                         (fun items => Parsed (CIRange lo hi :: items))
              else Rejected
          | _, _ => Unmodelled
          end
      | _ => pbind (resolveRanges rest)
                   (fun items => Parsed (catomItem a :: items))
      end
  end.

(** Where the scanner of the pattern text stands. *)
Inductive tmode :=
| MNormal
| MEscape                                  (* after [\] *)
| MParen                                   (* after [(] *)
| MParenQ                                  (* after [(?] *)
| MParenQLt                                (* after [(?<] *)
| MName (acc : list ascii)                 (* in a group name, reversed *)
| MClassStart                              (* after [[] *)
| MClass (neg : bool) (acc : list catom)   (* in a class, atoms reversed *)
| MClassEscape (neg : bool) (acc : list catom).

(** The scanner state: the mode and the tokens emitted so far, last first. *)
Definition tstate := (tmode * list token)%type.

Definition isIdStart (c : ascii) : bool :=
  (isAlpha c || Ascii.eqb c "$" || Ascii.eqb c "_")%bool.
Definition isIdPart (c : ascii) : bool := (isIdStart c || isDigit c)%bool.
Definition isAscii (c : ascii) : bool := Nat.ltb (code c) 128.

(** A class escape or a control escape, inside or outside a class. *)
Definition escapeAtom (c : ascii) : option catom :=
  if Ascii.eqb c "d" then Some (CASet false Digit)
  else if Ascii.eqb c "D" then Some (CASet true Digit)
  else if Ascii.eqb c "w" then Some (CASet false Word)
  else if Ascii.eqb c "W" then Some (CASet true Word)
  else if Ascii.eqb c "s" then Some (CASet false Space)
  else if Ascii.eqb c "S" then Some (CASet true Space)
  else if Ascii.eqb c "n" then Some (CAChar "010"%char)
  else if Ascii.eqb c "r" then Some (CAChar "013"%char)
  else if Ascii.eqb c "t" then Some (CAChar "009"%char)
  else if Ascii.eqb c "f" then Some (CAChar "012"%char)
  else if Ascii.eqb c "v" then Some (CAChar "011"%char)
  else None.

(** An identity escape: [\] before an ASCII character that is neither a
    letter, a digit nor [_] stands for that character. *)
Definition isIdentityEscape (c : ascii) : bool :=
  (isAscii c && negb (isWordChar c))%bool.

Definition catomCharset (a : catom) : charset :=
  match a with
  | CAChar c => CSChar c
  | CADash => CSChar "-"%char
  | CASet neg b => CSBuiltin neg b
  end.

Definition stepNormal (toks : list token) (c : ascii) : parse tstate :=
  if Ascii.eqb c "\" then Parsed (MEscape, toks)
  else if Ascii.eqb c "(" then Parsed (MParen, toks)
  else if Ascii.eqb c ")" then Parsed (MNormal, TClose :: toks)
  else if Ascii.eqb c "[" then Parsed (MClassStart, toks)
  else if Ascii.eqb c "|" then Parsed (MNormal, TBar :: toks)
  else if Ascii.eqb c "*" then Parsed (MNormal, TQuant QStar :: toks)
  else if Ascii.eqb c "+" then Parsed (MNormal, TQuant QPlus :: toks)
  else if Ascii.eqb c "?" then Parsed (MNormal, TQuant QOpt :: toks)
  else if Ascii.eqb c "." then Parsed (MNormal, TAtom CSAny :: toks)
  else if Ascii.eqb c "^" then Parsed (MNormal, TAssert AStart :: toks)
  else if Ascii.eqb c "$" then Parsed (MNormal, TAssert AEnd :: toks)
  else if (Ascii.eqb c "]" || Ascii.eqb c "{" || Ascii.eqb c "}")%bool
       then Unmodelled
  else Parsed (MNormal, TAtom (CSChar c) :: toks).

Definition stepClass (neg : bool) (acc : list catom) (toks : list token)
  (c : ascii) : parse tstate :=
  if Ascii.eqb c "]" then
    pbind (resolveRanges (rev acc))
          (fun items => Parsed (MNormal, TAtom (CSClass neg items) :: toks))
  else if Ascii.eqb c "\" then Parsed (MClassEscape neg acc, toks)
  else if Ascii.eqb c "-" then Parsed (MClass neg (CADash :: acc), toks)
  else Parsed (MClass neg (CAChar c :: acc), toks).

(** One character of the pattern. *)
Definition tstep (st : tstate) (c : ascii) : parse tstate :=
  let (mode, toks) := st in
  match mode with
  | MNormal => stepNormal toks c
  | MEscape =>
      match escapeAtom c with
      | Some a => Parsed (MNormal, TAtom (catomCharset a) :: toks)
      | None =>
          if isIdentityEscape c
          then Parsed (MNormal, TAtom (CSChar c) :: toks)
          else Unmodelled
      end
  | MParen =>
      if Ascii.eqb c "?" then Parsed (MParenQ, toks)
      else stepNormal (TOpen None :: toks) c
  | MParenQ =>
      if Ascii.eqb c ":" then Parsed (MNormal, TOpen None :: toks)
      else if Ascii.eqb c "<" then Parsed (MParenQLt, toks)
      else Unmodelled
  | MParenQLt =>
      if (Ascii.eqb c "=" || Ascii.eqb c "!")%bool then Unmodelled
      else if isIdStart c then Parsed (MName [c], toks)
      else if (negb (isAscii c) || Ascii.eqb c "\")%bool then Unmodelled
      else Rejected
  | MName acc =>
      if Ascii.eqb c ">" then Parsed (MNormal, TOpen (Some (rev acc)) :: toks)
      else if isIdPart c then Parsed (MName (c :: acc), toks)
      else if (negb (isAscii c) || Ascii.eqb c "\")%bool then Unmodelled
      else Rejected
  | MClassStart =>
      if Ascii.eqb c "^" then Parsed (MClass true [], toks)
      else stepClass false [] toks c
  | MClass neg acc => stepClass neg acc toks c
  | MClassEscape neg acc =>
      match escapeAtom c with
      | Some a => Parsed (MClass neg (a :: acc), toks)
      | None =>
          if Ascii.eqb c "b" then Parsed (MClass neg (CAChar "008"%char :: acc), toks)
          else if isIdentityEscape c
          then Parsed (MClass neg (CAChar c :: acc), toks)
          else Unmodelled
      end
  end.

Fixpoint tscan (st : tstate) (s : jsstring) : parse tstate :=
  match s with
  | [] => Parsed st
  | c :: rest => pbind (tstep st c) (fun st' => tscan st' rest)
  end.

(** At the end of the pattern: an open escape, group head or class is a
    syntax error; a trailing [(] opens a group that is never closed. *)
Definition tfinish (st : tstate) : parse (list token) :=
  let (mode, toks) := st in
  match mode with
  | MNormal => Parsed (rev toks)
  | MParen => Parsed (rev (TOpen None :: toks))
  | _ => Rejected
  end.

Definition tokenize (s : jsstring) : parse (list token) :=
  pbind (tscan (MNormal, []) s) tfinish.

(** ** From tokens to syntax *)

(** What a quantifier met next would apply to: nothing, the last term, or a
    greedy quantifier that a [?] turns lazy. *)
Inductive qstate := QNone | QAtom | QGreedy.

(** One open group (or the whole pattern, at the bottom of the stack): its
    name, the alternatives already closed by a [|] and the terms of the
    current alternative, both last first. *)
Record frame := mkFrame {
  f_name : option jsstring;
  f_alts : list regex;
  f_seq : list regex;
  f_q : qstate
}.

Fixpoint mkSeq (terms : list regex) : regex :=
  match terms with
  | [] => REmpty
  | t :: rest => RSeq t (mkSeq rest)
  end.

Fixpoint mkAlt (a : regex) (rest : list regex) : regex :=
  match rest with
  | [] => a
  | b :: rest' => RAlt a (mkAlt b rest')
  end.

(** The alternatives of a frame, first to last. *)
Definition frameAlts (f : frame) : list regex :=
  rev (mkSeq (rev (f_seq f)) :: f_alts f).

Definition disjunction (alts : list regex) : regex :=
  match alts with
  | [] => REmpty
  | a :: rest => mkAlt a rest
  end.

Definition frameRegex (f : frame) : regex := disjunction (frameAlts f).

Definition pushTerm (f : frame) (r : regex) (q : qstate) : frame :=
  mkFrame (f_name f) (f_alts f) (r :: f_seq f) q.

Definition quantBounds (q : quantifier) : nat * option nat :=
  match q with
  | QStar => (0%nat, None)
  | QPlus => (1%nat, None)
  | QOpt => (0%nat, Some 1%nat)
  end.

Definition applyQuant (f : frame) (q : quantifier) : parse frame :=
  match f_q f, f_seq f with
  | QAtom, r :: seq' =>
      let (lo, hi) := quantBounds q in
      Parsed (mkFrame (f_name f) (f_alts f)
                      (RRepeat lo hi true r :: seq') QGreedy)
  | QGreedy, RRepeat lo hi true r :: seq' =>
      match q with
      | QOpt => Parsed (mkFrame (f_name f) (f_alts f)
                                (RRepeat lo hi false r :: seq') QNone)
      | _ => Rejected
      end
  | _, _ => Rejected                       (* nothing to repeat *)
  end.

Definition pstep (stack : list frame) (t : token) : parse (list frame) :=
  match stack with
  | [] => Rejected
  | f :: below =>
      match t with
      | TAtom cs => Parsed (pushTerm f (RSet cs) QAtom :: below)
      | TAssert a => Parsed (pushTerm f (RAssert a) QNone :: below)
      | TOpen name => Parsed (mkFrame name [] [] QNone :: f :: below)
      | TClose =>
          match below with
          | [] => Rejected                 (* unmatched [)] *)
          | p :: below' =>
              Parsed (pushTerm p (RGroup (f_name f) (frameRegex f)) QAtom
                      :: below')
          end
      | TBar =>
          Parsed (mkFrame (f_name f) (mkSeq (rev (f_seq f)) :: f_alts f)
                          [] QNone :: below)
      | TQuant q => pbind (applyQuant f q) (fun f' => Parsed (f' :: below))
      end
  end.

Fixpoint prun (stack : list frame) (toks : list token) : parse (list frame) :=
  match toks with
  | [] => Parsed stack
  | t :: rest => pbind (pstep stack t) (fun st => prun st rest)
  end.

Definition topFrame : frame := mkFrame None [] [] QNone.

(** The alternatives of the whole pattern, first to last; a group still
    open at the end is a syntax error. *)
Definition parseAlternatives (toks : list token) : parse (list regex) :=
  pbind (prun [topFrame] toks)
        (fun st => match st with
                   | [f] => Parsed (frameAlts f)
                   | _ => Rejected
                   end).

Fixpoint mem (x : jsstring) (l : list jsstring) : bool :=
  match l with
  | [] => false
  | y :: rest => if list_eq_dec ascii_dec x y then true else mem x rest
  end.

Definition disjointb (l1 l2 : list jsstring) : bool :=
  forallb (fun n => negb (mem n l2)) l1.

(** Early error: two groups of one name.  Where both groups can take part
    in one match (one inside the other, or one after the other) every
    edition of the language rejects the pattern; where they sit in different
    alternatives, ECMAScript 2025 accepts what earlier editions reject, and
    the pattern is left out of the model. *)
Fixpoint earlyErrors (r : regex) : parse unit :=
  match r with
  | REmpty | RSet _ | RAssert _ => Parsed tt
  | RSeq r1 r2 =>
      pbind (earlyErrors r1) (fun _ =>
      pbind (earlyErrors r2) (fun _ =>
      if disjointb (groupNames r1) (groupNames r2)
      then Parsed tt else Rejected))
  | RAlt r1 r2 =>
      pbind (earlyErrors r1) (fun _ =>
      pbind (earlyErrors r2) (fun _ =>
      if disjointb (groupNames r1) (groupNames r2)
      then Parsed tt else Unmodelled))
  | RRepeat _ _ _ r1 => earlyErrors r1
  | RGroup (Some n) r1 =>
      pbind (earlyErrors r1) (fun _ =>
      if mem n (groupNames r1) then Rejected else Parsed tt)
  | RGroup None r1 => earlyErrors r1
  end.

(** The compiled object: the alternatives of its pattern and the mutable
    [lastIndex] property. *)
Record RegExp := mkRegExp {
  re_alts : list regex;
  lastIndex : Z
}.

Definition re_regex (re : RegExp) : regex := disjunction (re_alts re).
Definition re_names (re : RegExp) : list jsstring := groupNames (re_regex re).

(** The alternatives of a pattern text. *)
Definition compileAlts (pattern : jsstring) : parse (list regex) :=
  pbind (tokenize pattern) parseAlternatives.

(** [new RegExp(pattern, "sy")] *)
Definition newRegExp (pattern : jsstring) : parse RegExp :=
  pbind (compileAlts pattern) (fun alts =>
  pbind (earlyErrors (disjunction alts)) (fun _ =>
  Parsed (mkRegExp alts 0))).

(** ** [buildLexerRegExp] (index.js, lines 1-7) *)

(** A pattern is whatever has a [source] property. *)
Record Pattern := mkPattern { source : jsstring }.

(** [regExps], as [Object.entries] lists it. *)
Definition PatternSet := list (jsstring * Pattern).

Definition groupText (entry : jsstring * Pattern) : jsstring :=
  str "(?<" ++ fst entry ++ str ">" ++ source (snd entry) ++ str ")".

Definition buildLexerRegExp (regExps : PatternSet) : parse RegExp :=
  let buf := fold_left (fun buf entry => buf ++ [groupText entry]) regExps [] in
  newRegExp (join (str "|") buf).

(* ================================================================== *)
(** * Part 3. Matching: [RegExp.prototype.exec] and [matchNext] *)
(* ================================================================== *)

(** The semantics follows the pattern semantics of ECMA-262: a matcher
    takes a match state and a continuation and returns a final state or
    fails; backtracking is the choice between two calls of the
    continuation. *)

(** The captures of the named groups: the latest binding of a name is the
    first one in the list. *)
Definition captures := list (jsstring * jsstring).

Record mstate := mkState { endIndex : nat; caps : captures }.

Definition cont := mstate -> option mstate.
Definition matcher := mstate -> cont -> option mstate.

Fixpoint lookup (n : jsstring) (c : captures) : option jsstring :=
  match c with
  | [] => None
  | (k, v) :: rest => if list_eq_dec ascii_dec n k then Some v else lookup n rest
  end.

(** Captures of a quantified atom are undefined again when an iteration
    starts. *)
Definition resetCaptures (names : list jsstring) (c : captures) : captures :=
  filter (fun kv => negb (mem (fst kv) names)) c.

Definition orElse (a : option mstate) (b : option mstate) : option mstate :=
  match a with
  | Some z => Some z
  | None => b
  end.

(** RepeatMatcher.  An iteration that consumes nothing, once [min] is
    reached, fails; so [min] plus the number of code units left bounds the
    number of iterations, and [fuel] is chosen above it. *)
Fixpoint repeatMatcher (fuel : nat) (m : matcher) (min : nat)
  (max : option nat) (greedy : bool) (names : list jsstring)
  (x : mstate) (c : cont) : option mstate :=
  match fuel with
  | O => None
  | S fuel' =>
      match max with
      | Some O => c x
      | _ =>
          let d : cont := fun y =>
            if (Nat.eqb min 0 && Nat.eqb (endIndex y) (endIndex x))%bool
            then None
            else repeatMatcher fuel' m (Nat.pred min) (option_map Nat.pred max)
                               greedy names y c in
          let xr := mkState (endIndex x) (resetCaptures names (caps x)) in
          if negb (Nat.eqb min 0) then m xr d
          else if negb greedy then orElse (c x) (m xr d)
          else orElse (m xr d) (c x)
      end
  end.

Fixpoint matchRegex (input : jsstring) (r : regex) : matcher :=
  match r with
  | REmpty => fun x c => c x
  | RSet cs => fun x c =>
      match nth_error input (endIndex x) with
      | Some ch =>
          if charset_mem cs ch
          then c (mkState (S (endIndex x)) (caps x))
          else None
      | None => None
      end
  | RAssert AStart => fun x c =>
      if Nat.eqb (endIndex x) 0 then c x else None
  | RAssert AEnd => fun x c =>
      if Nat.eqb (endIndex x) (List.length input) then c x else None
  | RSeq r1 r2 => fun x c =>
      matchRegex input r1 x (fun y => matchRegex input r2 y c)
  | RAlt r1 r2 => fun x c =>
      orElse (matchRegex input r1 x c) (matchRegex input r2 x c)
  | RRepeat min max greedy r1 => fun x c =>
      repeatMatcher (S (min + (List.length input - endIndex x)))
                    (matchRegex input r1) min max greedy (groupNames r1) x c
  | RGroup name r1 => fun x c =>
      matchRegex input r1 x (fun y =>
        match name with
        | Some n =>
            c (mkState (endIndex y)
                 ((n, substring input (endIndex x) (endIndex y)) :: caps y))
        | None => c y
        end)
  end.

(** The match object, as far as the library reads it: [match[0]] and
    [match.groups], which is [undefined] when the pattern has no named
    group and otherwise has one property per group name, in pattern order,
    holding the capture or [undefined]. *)
Record MatchObject := mkMatch {
  m0 : jsstring;
  groups : option (list (jsstring * option jsstring))
}.

(** [lexerRegExp.exec(str)] with the sticky flag set: one attempt, at
    [lastIndex]; [lastIndex] becomes the end of the match, or 0 when there
    is none. *)
Definition exec (re : RegExp) (s : jsstring) : option MatchObject * RegExp :=
  let i := Z.to_nat (lastIndex re) in
  if Nat.ltb (List.length s) i then (None, mkRegExp (re_alts re) 0)
  else
    match matchRegex s (re_regex re) (mkState i []) (fun y => Some y) with
    | None => (None, mkRegExp (re_alts re) 0)
    | Some y =>
        let names := re_names re in
        (Some (mkMatch (substring s i (endIndex y))
                 (match names with
                  | [] => None
                  | _ => Some (map (fun n => (n, lookup n (caps y))) names)
                  end)),
         mkRegExp (re_alts re) (Z.of_nat (endIndex y)))
    end.

(** The result of [matchNext]; [kind] is [undefined] when [find] finds no
    group. *)
Record Match := mkMatchResult { kind : option jsstring; text : jsstring }.

(** A string is truthy when it is not empty; [undefined] is not. *)
Definition truthy (v : option jsstring) : bool :=
  match v with
  | Some (_ :: _) => true
  | _ => false
  end.

(** [Object.keys(o)] throws a [TypeError] on [undefined]. *)
Definition objectKeys (o : option (list (jsstring * option jsstring)))
  : result (list jsstring) :=
  match o with
  | None => Throw TypeError
  | Some props => Return (map fst props)
  end.

(** [o[k]] *)
Fixpoint getProp (props : list (jsstring * option jsstring)) (k : jsstring)
  : option jsstring :=
  match props with
  | [] => None
  | (n, v) :: rest => if list_eq_dec ascii_dec k n then v else getProp rest k
  end.

(** ** [matchNext] (index.js, lines 9-22) *)

Definition matchNext (index : Z) (s : jsstring) (lexerRegExp : RegExp)
  : result (option Match) * RegExp :=
  let re1 := mkRegExp (re_alts lexerRegExp) index in
  let (m, re2) := exec re1 s in
  match m with
  | None => (Return None, re2)
  | Some mo =>
      match objectKeys (groups mo) with
      | Return keys =>
          let props := match groups mo with Some p => p | None => [] end in
          let tokenKind := find (fun k => truthy (getProp props k)) keys in
          (Return (Some (mkMatchResult tokenKind (m0 mo))), re2)
      | Throw e => (Throw e, re2)
      | OutOfFuel => (OutOfFuel, re2)
      | NotModelled => (NotModelled, re2)
      end
  end.

(* ================================================================== *)
(** * Part 4. [lex] (index.js, lines 47-58) *)
(* ================================================================== *)

Record Token := mkToken {
  tok_kind : option jsstring;
  tok_text : jsstring;
  tok_loc : Location
}.

Definition origin : Location := mkLoc 0 1 1.

(** The [while] loop; [fuel] bounds the number of iterations. *)
Fixpoint lexLoop (fuel : nat) (src : jsstring) (lexerRegExp : RegExp)
  (tokens : list Token) (loc : Location) : result (list Token) :=
  if index loc <? len src then
    match fuel with
    | O => OutOfFuel
    | S fuel' =>
        match matchNext (index loc) src lexerRegExp with
        | (Return None, _) =>
            match newSyntaxError loc src (str "Unknown token") with
            | Return e => Throw (LexSyntaxError e)
            | Throw e => Throw e
            | OutOfFuel => OutOfFuel
            | NotModelled => NotModelled
            end
        | (Return (Some m), re') =>
            lexLoop fuel' src re'
                    (tokens ++ [mkToken (kind m) (text m) loc])
                    (nextLocation loc (text m))
        | (Throw e, _) => Throw e
        | (OutOfFuel, _) => OutOfFuel
        | (NotModelled, _) => NotModelled
        end
    end
  else Return tokens.

Definition lex (fuel : nat) (src : jsstring) (regExps : PatternSet)
  : result (list Token) :=
  match buildLexerRegExp regExps with
  | Parsed lexerRegExp => lexLoop fuel src lexerRegExp [] origin
  | Rejected => Throw RegExpSyntaxError
  | Unmodelled => NotModelled
  end.

(* ================================================================== *)
(** * Part 5. Statements used by the theorems *)
(* ================================================================== *)

(** What [matchNext] answers at a position: it does not depend on the
    [lastIndex] the matcher was left with. *)
Definition scan (alts : list regex) (i : Z) (s : jsstring)
  : result (option Match) :=
  fst (matchNext i s (mkRegExp alts 0)).

(** A run of the loop of [lex]: [steps src alts loc toks loc'] when, from
    [loc], the loop pushes the tokens [toks] in this order and reaches
    [loc']. *)
Inductive steps (src : jsstring) (alts : list regex)
  : Location -> list Token -> Location -> Prop :=
| steps_done : forall loc, steps src alts loc [] loc
| steps_token : forall loc m toks loc',
    index loc < len src ->
    scan alts (index loc) src = Return (Some m) ->
    steps src alts (nextLocation loc (text m)) toks loc' ->
    steps src alts loc (mkToken (kind m) (text m) loc :: toks) loc'.

(** The locations a run goes through: the start and the location after each
    token text. *)
Fixpoint locations (loc : Location) (texts : list jsstring) : list Location :=
  loc :: match texts with
         | [] => []
         | t :: rest => locations (nextLocation loc t) rest
         end.

(** The scanner state with older tokens [base] below its own. *)
Definition addBase (base : list token) (st : tstate) : tstate :=
  (fst st, snd st ++ base).

(** The parser stack with the bottom frame renamed and given older
    alternatives [base]. *)
Fixpoint rebase (name : option jsstring) (base : list regex)
  (stack : list frame) : list frame :=
  match stack with
  | [] => []
  | f :: rest =>
      match rest with
      | [] => [mkFrame name (f_alts f ++ base) (f_seq f) (f_q f)]
      | _ => f :: rebase name base rest
      end
  end.

Definition namesOf (l : list regex) : list jsstring :=
  List.concat (map groupNames l).

Definition optName (name : option jsstring) : list jsstring :=
  match name with
  | Some n => [n]
  | None => []
  end.

(** The group names a parser stack holds, in pattern order. *)
Definition frameNames (f : frame) : list jsstring :=
  optName (f_name f) ++ namesOf (rev (f_alts f)) ++ namesOf (rev (f_seq f)).

Definition stackNames (stack : list frame) : list jsstring :=
  List.concat (map frameNames (rev stack)).

(** A prefix of the source that ends where a line starts. *)
Definition lineStart (before : jsstring) : Prop :=
  before = [] \/ exists b, before = b ++ [NL].

(** [loc] is the location of the position [index loc] of [src]: the text
    before it is whole lines [before], one per newline, followed by the
    [column loc - 1] characters [cur] of the current line. *)
Definition tracks (src : jsstring) (loc : Location) : Prop :=
  0 <= index loc <= len src /\
  exists before cur,
    firstn (Z.to_nat (index loc)) src = before ++ cur /\
    lineStart before /\
    ~ In NL cur /\
    line loc = 1 + Z.of_nat (count_occ ascii_dec before NL) /\
    column loc = 1 + len cur.

(** The text up to the first newline. *)
Definition firstLine (s : jsstring) : jsstring := hd [] (split NL s).

(** The entry that answers at a position when the entries are tried one by
    one, in order, each compiled on its own. *)
Fixpoint firstListed (i : Z) (s : jsstring) (entries : PatternSet)
  : result (option Match) :=
  match entries with
  | [] => Return None
  | e :: rest =>
      match buildLexerRegExp [e] with
      | Parsed re1 =>
          match scan (re_alts re1) i s with
          | Return None => firstListed i s rest
          | r => r
          end
      | Rejected => Throw RegExpSyntaxError
      | Unmodelled => NotModelled
      end
  end.

(** [y] is a state a matcher for groups [names] can hand to its
    continuation when started in [x]: it has not moved backwards nor past
    the end of the input, and it has left every other capture alone. *)
Definition extends (input : jsstring) (names : list jsstring)
  (x y : mstate) : Prop :=
  (endIndex x <= endIndex y <= List.length input)%nat /\
  forall n, ~ In n names -> lookup n (caps y) = lookup n (caps x).

(** A matcher is regular for [names] when each of its results is a result
    of its continuation at a state that extends the start. *)
Definition regular (input : jsstring) (names : list jsstring) (m : matcher)
  : Prop :=
  forall x c z,
    (endIndex x <= List.length input)%nat ->
    m x c = Some z ->
    exists y, extends input names x y /\ c y = Some z.

(** The group names a token list opens, in order. *)
Fixpoint tokenNames (toks : list token) : list jsstring :=
  match toks with
  | [] => []
  | TOpen (Some n) :: rest => n :: tokenNames rest
  | _ :: rest => tokenNames rest
  end.

(** C4 as the spec states it: the match the scanner selects is at least as
    long as the match of any entry of the set at that position. *)
Definition selectsLongest : Prop :=
  forall (regExps : PatternSet) (re : RegExp) (i : Z) (s : jsstring) (m : Match),
    buildLexerRegExp regExps = Parsed re ->
    fst (matchNext i s re) = Return (Some m) ->
    forall e re1 m1,
      In e regExps ->
      buildLexerRegExp [e] = Parsed re1 ->
      fst (matchNext i s re1) = Return (Some m1) ->
      (List.length (text m1) <= List.length (text m))%nat.

(** An ASCII identifier: what a kind must be to name its group. *)
Definition isIdentifier (k : jsstring) : bool :=
  match k with
  | [] => false
  | c :: rest => (isIdStart c && forallb isIdPart rest)%bool
  end.

(** A string without a newline. *)
Definition oneLine (s : jsstring) : bool :=
  forallb (fun c => negb (Ascii.eqb c NL)) s.

(** The alternative an entry contributes to the combined pattern: the
    group of its kind around the alternatives [a] of its source. *)
Definition entryAlt (k : jsstring) (a : list regex) : regex :=
  RSeq (RGroup (Some k) (disjunction a)) REmpty.

(** An entry whose kind is an ASCII identifier and whose source is, on its
    own, a pattern of the fragment of Part 2, with alternatives [a].  The
    fragment is narrower than what the constructor accepts.  A source of
    the fragment is written with:
    - literal characters, except an unescaped [{] or [}] and a []] outside
      a class;
    - [.], [^], [$], [|] and the quantifiers [*], [+], [?], greedy or lazy;
    - the escapes [\d \D \w \W \s \S \n \r \t \f \v] and a backslash
      before an ASCII character that is neither a letter, a digit nor [_],
      and no other escape: so no back-reference ([\1], [\k<name>], [\k]),
      no [\b] outside a class, no [\x], [\u], [\c], [\0] or [\p];
    - bracketed classes of characters, of those escapes and [\b], and of
      ranges with a single character at both ends;
    - groups opened by [(], [(?:] or [(?<name>] with an ASCII identifier
      as name, and no other group head: so no lookahead, lookbehind or
      modifiers.
    A source outside the fragment may well be a pattern for the
    constructor; nothing is said about it here. *)
Definition entryCompiles (e : jsstring * Pattern) (a : list regex) : Prop :=
  isIdentifier (fst e) = true /\ compileAlts (source (snd e)) = Parsed a.

(** The README's example pattern set. *)
Definition idNumWs : PatternSet :=
  [ (str "id", mkPattern (str "[a-zA-Z_][a-zA-Z0-9_]*"));
    (str "num", mkPattern (str "\d+"));
    (str "ws", mkPattern (str "\s+")) ].

(* ================================================================== *)
(** * Part 6. Theorems *)
(* ================================================================== *)

(** ** Strings *)

Lemma len_app (a b : jsstring) : len (a ++ b) = len a + len b.
Proof. unfold len. rewrite length_app. lia. Qed.

Lemma len_nonneg (a : jsstring) : 0 <= len a.
Proof. unfold len. lia. Qed.

Lemma eqb_NL_iff (c : ascii) : Ascii.eqb NL c = true <-> c = NL.
Proof. rewrite Ascii.eqb_eq. split; congruence. Qed.

Lemma filter_NL_length (text : jsstring) :
  List.length (filter (Ascii.eqb NL) text) = count_occ ascii_dec text NL.
Proof.
  induction text as [|c text IH]; [reflexivity|].
  cbn [filter count_occ].
  destruct (Ascii.eqb NL c) eqn:E; destruct (ascii_dec c NL) as [Heq|Hne].
  - cbn [List.length]. now rewrite IH.
  - apply eqb_NL_iff in E. contradiction.
  - apply eqb_NL_iff in Heq. congruence.
  - exact IH.
Qed.

Lemma matchNewlines_count (text : jsstring) :
  match matchNewlines text with
  | Some arr => Z.of_nat (List.length arr)
  | None => 0
  end = Z.of_nat (count_occ ascii_dec text NL).
Proof.
  unfold matchNewlines. rewrite <- filter_NL_length.
  destruct (filter (Ascii.eqb NL) text); simpl; [reflexivity|].
  now rewrite length_map.
Qed.

(** [lastIndexOf_from] returns the accumulator when the character does not
    occur, and otherwise the position of its last occurrence. *)
Lemma lastIndexOf_from_spec (c : ascii) (text : jsstring) :
  forall i acc,
    (~ In c text -> lastIndexOf_from c text i acc = acc) /\
    (In c text ->
     exists pre post, text = pre ++ c :: post /\ ~ In c post /\
                      lastIndexOf_from c text i acc = i + len pre).
Proof.
  induction text as [|x text IH]; intros i acc; simpl.
  - split; [reflexivity | intros []].
  - destruct (IH (i + 1) (if Ascii.eqb x c then i else acc)) as [IHno IHyes].
    destruct (in_dec ascii_dec c text) as [Hin|Hnin].
    + split; [intros H; exfalso; apply H; now right|].
      intros _. destruct (IHyes Hin) as (pre & post & -> & Hpost & Heq).
      exists (x :: pre), post. repeat split; auto.
      rewrite Heq. unfold len. simpl List.length. lia.
    + split.
      * intros H. rewrite (IHno Hnin).
        destruct (Ascii.eqb x c) eqn:E; [|reflexivity].
        apply Ascii.eqb_eq in E. exfalso. apply H. now left.
      * intros [->|Hin]; [|contradiction].
        exists [], text. repeat split; auto.
        rewrite (IHno Hnin), Ascii.eqb_refl. unfold len. simpl. lia.
Qed.

Lemma lastIndexOf_absent (text : jsstring) (c : ascii) :
  ~ In c text -> lastIndexOf text c = -1.
Proof. intros H. now apply (lastIndexOf_from_spec c text 0 (-1)). Qed.

Lemma lastIndexOf_present (text : jsstring) (c : ascii) :
  In c text ->
  exists pre post, text = pre ++ c :: post /\ ~ In c post /\
                   lastIndexOf text c = len pre.
Proof.
  intros H.
  destruct (proj2 (lastIndexOf_from_spec c text 0 (-1)) H)
    as (pre & post & ? & ? & Heq).
  exists pre, post. repeat split; auto.
Qed.

Lemma count_occ_pos_In (text : jsstring) (c : ascii) :
  (0 < count_occ ascii_dec text c)%nat <-> In c text.
Proof. symmetry. apply count_occ_In. Qed.

(** ** [nextLocation] *)

Lemma nextLocation_index (loc : Location) (text : jsstring) :
  index (nextLocation loc text) = index loc + len text.
Proof. reflexivity. Qed.

Lemma nextLocation_line (loc : Location) (text : jsstring) :
  line (nextLocation loc text)
  = line loc + Z.of_nat (count_occ ascii_dec text NL).
Proof. unfold nextLocation. simpl. now rewrite matchNewlines_count. Qed.

Lemma nextLocation_column_newline (loc : Location) (text : jsstring) :
  In NL text ->
  exists pre post, text = pre ++ NL :: post /\ ~ In NL post /\
                   column (nextLocation loc text) = len text - len pre.
Proof.
  intros H. destruct (lastIndexOf_present text NL H) as (pre & post & E & Hp & Hl).
  exists pre, post. repeat split; auto.
  unfold nextLocation. simpl. rewrite Hl.
  destruct (len pre >=? 0) eqn:G; [reflexivity|].
  pose proof (len_nonneg pre). lia.
Qed.

Lemma nextLocation_column_same_line (loc : Location) (text : jsstring) :
  ~ In NL text ->
  column (nextLocation loc text) = column loc + len text.
Proof.
  intros H. unfold nextLocation. simpl. now rewrite (lastIndexOf_absent text NL H).
Qed.

(** C2. For a location with line and column at least 1 and any text,
    [nextLocation] adds the length of the text to the index and the number
    [k] of newlines to the line; the column is the length of the text minus
    the offset of its last newline when [k > 0], and the old column plus the
    length when [k = 0].  The two examples of the spec evaluate to
    [{8, 2, 4}] and [{2, 1, 3}]. *)
Theorem nextLocation_spec (loc : Location) (text : jsstring) :
  1 <= line loc -> 1 <= column loc ->
  let k := Z.of_nat (count_occ ascii_dec text NL) in
  let loc' := nextLocation loc text in
  index loc' = index loc + len text /\
  line loc' = line loc + k /\
  (k > 0 ->
   exists pre post, text = pre ++ NL :: post /\ ~ In NL post /\
                    column loc' = len text - len pre) /\
  (k = 0 -> column loc' = column loc + len text) /\
  nextLocation (mkLoc 0 1 1) (str "aaa " ++ [NL] ++ str " bb") = mkLoc 8 2 4 /\
  nextLocation (mkLoc 0 1 1) (str "aa") = mkLoc 2 1 3.
Proof.
  intros _ _ k loc'. subst k loc'.
  split; [apply nextLocation_index|].
  split; [apply nextLocation_line|].
  split; [|split; [|split; reflexivity]].
  - intros Hk. apply nextLocation_column_newline.
    apply count_occ_pos_In. lia.
  - intros Hk. apply nextLocation_column_same_line.
    intros Hin. apply count_occ_pos_In in Hin. lia.
Qed.

Lemma nextLocation_spec_witness :
  let loc := mkLoc 3 1 4 in
  let text := str "a" ++ [NL] ++ str "bc" in
  index (nextLocation loc text) = 7 /\
  line (nextLocation loc text) = 2 /\
  column (nextLocation loc text) = 3.
Proof.
  intros loc text.
  destruct (nextLocation_spec loc text) as (Hi & Hl & _ & _ & _ & _);
    [simpl; lia | simpl; lia |].
  split; [exact Hi | split; [exact Hl | reflexivity]].
Defined.

(** ** Captures *)

Lemma mem_In (x : jsstring) (l : list jsstring) : mem x l = true <-> In x l.
Proof.
  induction l as [|y l IH]; simpl.
  - split; [discriminate | intros []].
  - destruct (list_eq_dec ascii_dec x y) as [->|Hne].
    + split; auto.
    + rewrite IH. split; [now right | intros [H|H]; [congruence | exact H]].
Qed.

Lemma mem_false (x : jsstring) (l : list jsstring) :
  mem x l = false <-> ~ In x l.
Proof.
  rewrite <- mem_In. destruct (mem x l); split; congruence.
Qed.

Lemma disjointb_spec (l1 l2 : list jsstring) :
  disjointb l1 l2 = true <-> forall n, In n l1 -> ~ In n l2.
Proof.
  unfold disjointb. rewrite forallb_forall. split; intros H n Hn.
  - apply mem_false. apply negb_true_iff. now apply H.
  - apply negb_true_iff. apply mem_false. now apply H.
Qed.

Lemma lookup_reset (n : jsstring) (names : list jsstring) (c : captures) :
  ~ In n names -> lookup n (resetCaptures names c) = lookup n c.
Proof.
  intros Hn. induction c as [|[k v] c IH]; simpl; [reflexivity|].
  destruct (mem k names) eqn:E; simpl.
  - destruct (list_eq_dec ascii_dec n k) as [->|Hne]; [|exact IH].
    apply mem_In in E. contradiction.
  - destruct (list_eq_dec ascii_dec n k); [reflexivity | exact IH].
Qed.

(** ** Matchers: every success goes through the continuation *)

Section Matchers.

Variable input : jsstring.

Lemma extends_refl (names : list jsstring) (x : mstate) :
  (endIndex x <= List.length input)%nat -> extends input names x x.
Proof. intros H. split; [lia | reflexivity]. Qed.

Lemma extends_trans (n1 n2 names : list jsstring) (x y z : mstate) :
  incl n1 names -> incl n2 names ->
  extends input n1 x y -> extends input n2 y z -> extends input names x z.
Proof.
  intros I1 I2 [R1 L1] [R2 L2]. split; [lia|].
  intros n Hn. rewrite L2, L1; auto.
Qed.

Lemma repeatMatcher_regular (m : matcher) (names : list jsstring) :
  regular input names m ->
  forall fuel min max greedy,
    regular input names (repeatMatcher fuel m min max greedy names).
Proof.
  intros Hm fuel. induction fuel as [|fuel IH]; intros min max greedy x c z Hx H.
  - discriminate.
  - assert (Hstay : c x = Some z -> exists y, extends input names x y /\ c y = Some z).
    { intros Hc. exists x. split; [now apply extends_refl | exact Hc]. }
    assert (Hiter :
      m (mkState (endIndex x) (resetCaptures names (caps x)))
        (fun y =>
           if (Nat.eqb min 0 && Nat.eqb (endIndex y) (endIndex x))%bool
           then None
           else repeatMatcher fuel m (Nat.pred min) (option_map Nat.pred max)
                              greedy names y c) = Some z ->
      exists y, extends input names x y /\ c y = Some z).
    { intros Hrun. apply Hm in Hrun; [|exact Hx].
      destruct Hrun as (y1 & [R1 L1] & Hd). simpl in R1, L1.
      destruct (Nat.eqb min 0 && Nat.eqb (endIndex y1) (endIndex x))%bool;
        [discriminate|].
      apply IH in Hd; [|lia].
      destruct Hd as (y & [R2 L2] & Hc). exists y. split; [|exact Hc].
      split; [lia|]. intros n Hn. rewrite L2, L1 by exact Hn.
      now apply lookup_reset. }
    simpl in H.
    destruct max as [[|k]|].
    + now apply Hstay.
    + destruct (Nat.eqb min 0); simpl in H; [|now apply Hiter].
      destruct greedy; simpl in H; unfold orElse in H.
      * match type of H with
        | match ?a with _ => _ end = _ => destruct a eqn:E
        end; [inversion H; subst; now apply Hiter | now apply Hstay].
      * destruct (c x) eqn:E; [inversion H; subst; now apply Hstay | now apply Hiter].
    + destruct (Nat.eqb min 0); simpl in H; [|now apply Hiter].
      destruct greedy; simpl in H; unfold orElse in H.
      * match type of H with
        | match ?a with _ => _ end = _ => destruct a eqn:E
        end; [inversion H; subst; now apply Hiter | now apply Hstay].
      * destruct (c x) eqn:E; [inversion H; subst; now apply Hstay | now apply Hiter].
Qed.

Lemma regular_incl (n1 n2 : list jsstring) (m : matcher) :
  incl n1 n2 -> regular input n1 m -> regular input n2 m.
Proof.
  intros Hi Hm x c z Hx H. destruct (Hm x c z Hx H) as (y & [R L] & Hc).
  exists y. split; [|exact Hc]. split; [exact R|].
  intros n Hn. apply L. intros Hin. apply Hn, Hi, Hin.
Qed.

Lemma matchRegex_regular (r : regex) :
  regular input (groupNames r) (matchRegex input r).
Proof.
  induction r as [ | cs | a | r1 IH1 r2 IH2 | r1 IH1 r2 IH2
                 | min max greedy r1 IH1 | name r1 IH1 ].
  - intros x c z Hx H. exists x. split; [now apply extends_refl | exact H].
  - intros x c z Hx H. simpl in H.
    destruct (nth_error input (endIndex x)) as [ch|] eqn:E; [|discriminate].
    destruct (charset_mem cs ch); [|discriminate].
    assert (endIndex x < List.length input)%nat
      by (apply nth_error_Some; congruence).
    eexists. split; [|exact H]. split; simpl; [lia | reflexivity].
  - intros x c z Hx H. exists x. split; [now apply extends_refl|].
    destruct a; simpl in H.
    + destruct (Nat.eqb (endIndex x) 0); [exact H | discriminate].
    + destruct (Nat.eqb (endIndex x) (List.length input)); [exact H | discriminate].
  - intros x c z Hx H. simpl in H.
    apply IH1 in H; [|exact Hx]. destruct H as (y1 & E1 & H).
    apply IH2 in H; [|apply E1]. destruct H as (y & E2 & H).
    exists y. split; [|exact H].
    apply (extends_trans (groupNames r1) (groupNames r2) _ x y1 y);
      [apply incl_appl, incl_refl | apply incl_appr, incl_refl
      | exact E1 | exact E2].
  - intros x c z Hx H. simpl in H. unfold orElse in H.
    destruct (matchRegex input r1 x c) eqn:E.
    + inversion H; subst.
      apply (regular_incl (groupNames r1) (groupNames (RAlt r1 r2))) in IH1;
        [|simpl; apply incl_appl, incl_refl].
      exact (IH1 x c z Hx E).
    + apply (regular_incl (groupNames r2) (groupNames (RAlt r1 r2))) in IH2;
        [|simpl; apply incl_appr, incl_refl].
      exact (IH2 x c z Hx H).
  - intros x c z Hx H.
    exact (repeatMatcher_regular _ _ IH1 _ _ _ _ x c z Hx H).
  - intros x c z Hx H. simpl in H.
    apply IH1 in H; [|exact Hx]. destruct H as (y1 & [R1 L1] & H).
    destruct name as [n|].
    + eexists. split; [|exact H]. split; simpl; [exact R1|].
      intros k Hk. destruct (list_eq_dec ascii_dec k n) as [->|Hne].
      * exfalso. apply Hk. now left.
      * apply L1. intros Hin. apply Hk. now right.
    + exists y1. split; [|exact H]. split; [exact R1 | exact L1].
Qed.

End Matchers.

(** ** [exec] and [matchNext] *)

Lemma getProp_map (f : jsstring -> option jsstring) (names : list jsstring)
  (k : jsstring) :
  In k names -> getProp (map (fun n => (n, f n)) names) k = f k.
Proof.
  induction names as [|n names IH]; simpl; [intros []|].
  intros H. destruct (list_eq_dec ascii_dec k n) as [->|Hne]; [reflexivity|].
  destruct H as [H|H]; [congruence | now apply IH].
Qed.

Lemma find_ext_in {A} (p q : A -> bool) (l : list A) :
  (forall a, In a l -> p a = q a) -> find p l = find q l.
Proof.
  induction l as [|a l IH]; simpl; intros H; [reflexivity|].
  rewrite (H a) by now left. destruct (q a); [reflexivity|].
  apply IH. intros b Hb. apply H. now right.
Qed.

Lemma find_app {A} (p : A -> bool) (l1 l2 : list A) :
  find p (l1 ++ l2) = match find p l1 with
                      | Some a => Some a
                      | None => find p l2
                      end.
Proof.
  induction l1 as [|a l1 IH]; simpl; [reflexivity|].
  destruct (p a); [reflexivity | exact IH].
Qed.

Lemma find_none_all {A} (p : A -> bool) (l : list A) :
  (forall a, In a l -> p a = false) -> find p l = None.
Proof.
  induction l as [|a l IH]; simpl; intros H; [reflexivity|].
  rewrite (H a) by now left. apply IH. intros b Hb. apply H. now right.
Qed.

(** What [matchNext] computes, in one equation: nothing beyond the end of
    the string; otherwise one run of the matcher at the position, and, on a
    match, the first group that captured a non-empty string. *)
Lemma scan_eq (alts : list regex) (i : Z) (s : jsstring) :
  scan alts i s =
  if Nat.ltb (List.length s) (Z.to_nat i) then Return None
  else match matchRegex s (disjunction alts) (mkState (Z.to_nat i) [])
                        (fun y => Some y) with
       | None => Return None
       | Some y =>
           match groupNames (disjunction alts) with
           | [] => Throw TypeError
           | names =>
               Return (Some (mkMatchResult
                        (find (fun k => truthy (lookup k (caps y))) names)
                        (substring s (Z.to_nat i) (endIndex y))))
           end
       end.
Proof.
  unfold scan, matchNext, exec, re_names, re_regex. cbn [lastIndex re_alts].
  destruct (Nat.ltb (List.length s) (Z.to_nat i)); [reflexivity|].
  destruct (matchRegex s (disjunction alts) _ _) as [y|]; [|reflexivity].
  cbn [groups m0 fst].
  destruct (groupNames (disjunction alts)) as [|n names] eqn:E; [reflexivity|].
  cbn [objectKeys fst]. rewrite map_map. cbn [fst]. rewrite map_id.
  f_equal. f_equal. f_equal.
  apply find_ext_in. intros k Hk.
  now rewrite (getProp_map (fun n => lookup n (caps y))).
Qed.

Lemma matchNext_scan (i : Z) (s : jsstring) (re : RegExp) :
  fst (matchNext i s re) = scan (re_alts re) i s.
Proof. reflexivity. Qed.

Lemma matchNext_alts (i : Z) (s : jsstring) (re : RegExp) :
  re_alts (snd (matchNext i s re)) = re_alts re.
Proof.
  unfold matchNext, exec. cbn [lastIndex re_alts].
  destruct (Nat.ltb (List.length s) (Z.to_nat i)); [reflexivity|].
  destruct (matchRegex s _ _ _); [|reflexivity].
  cbn [groups]. destruct (objectKeys _); reflexivity.
Qed.

(** A match is the part of the string between the position and an end that
    lies within the string. *)
Lemma scan_text (alts : list regex) (i : Z) (s : jsstring) (m : Match) :
  scan alts i s = Return (Some m) ->
  exists e, (Z.to_nat i <= e <= List.length s)%nat /\
            text m = substring s (Z.to_nat i) e.
Proof.
  rewrite scan_eq.
  destruct (Nat.ltb (List.length s) (Z.to_nat i)) eqn:L; [discriminate|].
  apply Nat.ltb_ge in L.
  destruct (matchRegex s (disjunction alts) _ _) as [y|] eqn:M; [|discriminate].
  apply matchRegex_regular in M; [|exact L].
  destruct M as (y' & [R _] & Hy). inversion Hy; subst y'. simpl in R.
  destruct (groupNames (disjunction alts)); [discriminate|].
  intros H. inversion H; subst. exists (endIndex y). split; [lia | reflexivity].
Qed.

Lemma substring_length (s : jsstring) (i e : nat) :
  (i <= e <= List.length s)%nat -> List.length (substring s i e) = (e - i)%nat.
Proof.
  intros H. unfold substring. rewrite length_firstn, length_skipn. lia.
Qed.

Lemma firstn_substring (s : jsstring) (i e : nat) :
  (i <= e)%nat -> firstn i s ++ substring s i e = firstn e s.
Proof.
  unfold substring. revert s e.
  induction i as [|i IH]; intros s e H.
  - simpl. now rewrite Nat.sub_0_r.
  - destruct e as [|e]; [lia|]. destruct s as [|a s].
    + simpl. now rewrite firstn_nil.
    + simpl. f_equal. apply IH. lia.
Qed.

(** The only exception of [matchNext] is the [TypeError] of [Object.keys]. *)
Lemma scan_Throw (alts : list regex) (i : Z) (s : jsstring) (e : exn) :
  scan alts i s = Throw e -> e = TypeError.
Proof.
  rewrite scan_eq.
  destruct (Nat.ltb (List.length s) (Z.to_nat i)); [discriminate|].
  destruct (matchRegex s (disjunction alts) _ _); [|discriminate].
  destruct (groupNames (disjunction alts)); [|discriminate].
  intros H. now inversion H.
Qed.

(** ** The loop of [lex] and its runs *)

Lemma lexLoop_unfold (fuel : nat) (src : jsstring) (re : RegExp)
  (acc : list Token) (loc : Location) :
  lexLoop (S fuel) src re acc loc =
  if index loc <? len src then
    match scan (re_alts re) (index loc) src with
    | Return None =>
        match newSyntaxError loc src (str "Unknown token") with
        | Return e => Throw (LexSyntaxError e)
        | Throw e => Throw e
        | OutOfFuel => OutOfFuel
        | NotModelled => NotModelled
        end
    | Return (Some m) =>
        lexLoop fuel src (snd (matchNext (index loc) src re))
                (acc ++ [mkToken (kind m) (text m) loc])
                (nextLocation loc (text m))
    | Throw e => Throw e
    | OutOfFuel => OutOfFuel
    | NotModelled => NotModelled
    end
  else Return acc.
Proof.
  rewrite <- matchNext_scan. cbn [lexLoop].
  destruct (index loc <? len src); [|reflexivity].
  destruct (matchNext (index loc) src re) as [r re']. cbn [fst snd].
  destruct r as [[m|]| | |]; reflexivity.
Qed.

(** A returned token list is a run from the start to a location at or past
    the end of the source. *)
Lemma lexLoop_Return (fuel : nat) (src : jsstring) :
  forall re acc loc out,
    lexLoop fuel src re acc loc = Return out ->
    exists toks loc',
      out = acc ++ toks /\
      steps src (re_alts re) loc toks loc' /\
      len src <= index loc' /\
      (List.length toks <= fuel)%nat.
Proof.
  induction fuel as [|fuel IH]; intros re acc loc out H.
  - cbn [lexLoop] in H. destruct (index loc <? len src) eqn:E; [discriminate|].
    inversion H; subst. exists [], loc. rewrite app_nil_r.
    repeat split; [constructor | lia | simpl; lia].
  - rewrite lexLoop_unfold in H.
    destruct (index loc <? len src) eqn:E.
    + destruct (scan (re_alts re) (index loc) src) as [[m|]| | |] eqn:S;
        try discriminate.
      * apply IH in H. destruct H as (toks & loc' & -> & Hs & Hend & Hlen).
        rewrite matchNext_alts in Hs.
        exists (mkToken (kind m) (text m) loc :: toks), loc'.
        rewrite <- app_assoc. repeat split; auto.
        -- econstructor; eauto. lia.
        -- simpl. lia.
      * destruct (newSyntaxError loc src (str "Unknown token")); discriminate.
    + inversion H; subst. exists [], loc. rewrite app_nil_r.
      repeat split; [constructor | lia | simpl; lia].
Qed.

Lemma steps_lexLoop_Return (src : jsstring) (alts : list regex)
  (loc : Location) (toks : list Token) (loc' : Location) :
  steps src alts loc toks loc' ->
  len src <= index loc' ->
  forall fuel re acc,
    re_alts re = alts ->
    (List.length toks <= fuel)%nat ->
    lexLoop fuel src re acc loc = Return (acc ++ toks).
Proof.
  induction 1 as [loc | loc m toks loc' Hlt Hscan Hsteps IH];
    intros Hend fuel re acc Hre Hfuel.
  - rewrite app_nil_r. destruct fuel; cbn [lexLoop];
      (destruct (index loc <? len src) eqn:E; [lia | reflexivity]).
  - destruct fuel as [|fuel]; [simpl in Hfuel; lia|].
    rewrite lexLoop_unfold, Hre, Hscan.
    destruct (index loc <? len src) eqn:E; [|lia].
    rewrite (IH Hend); [now rewrite <- app_assoc | now rewrite matchNext_alts
                       | simpl in Hfuel; lia].
Qed.

(** A thrown [SyntaxError] is a run to a location before the end of the
    source where [matchNext] answers [null]. *)
Lemma lexLoop_Throw (fuel : nat) (src : jsstring) :
  forall re acc loc e,
    lexLoop fuel src re acc loc = Throw (LexSyntaxError e) ->
    exists toks loc',
      steps src (re_alts re) loc toks loc' /\
      index loc' < len src /\
      scan (re_alts re) (index loc') src = Return None /\
      newSyntaxError loc' src (str "Unknown token") = Return e /\
      (List.length toks < fuel)%nat.
Proof.
  induction fuel as [|fuel IH]; intros re acc loc e H.
  - cbn [lexLoop] in H. destruct (index loc <? len src); discriminate.
  - rewrite lexLoop_unfold in H.
    destruct (index loc <? len src) eqn:E; [|discriminate].
    destruct (scan (re_alts re) (index loc) src) as [[m|]| | |] eqn:S;
      try discriminate.
    + apply IH in H. destruct H as (toks & loc' & Hs & Hlt & Hn & He & Hlen).
      rewrite matchNext_alts in Hs, Hn.
      exists (mkToken (kind m) (text m) loc :: toks), loc'.
      repeat split; auto.
      * econstructor; eauto. lia.
      * simpl. lia.
    + destruct (newSyntaxError loc src (str "Unknown token")) eqn:N;
        try discriminate.
      * inversion H; subst. exists [], loc.
        repeat split; auto; [constructor | lia | simpl; lia].
      * exfalso. inversion H; subst. unfold newSyntaxError, repeatSpace in N.
        destruct (column loc - 1 <? 0); discriminate.
    + inversion H; subst. apply scan_Throw in S. discriminate.
Qed.

Lemma steps_lexLoop_Throw (src : jsstring) (alts : list regex)
  (loc : Location) (toks : list Token) (loc' : Location) :
  steps src alts loc toks loc' ->
  forall e,
    index loc' < len src ->
    scan alts (index loc') src = Return None ->
    newSyntaxError loc' src (str "Unknown token") = Return e ->
    forall fuel re acc,
      re_alts re = alts ->
      (List.length toks < fuel)%nat ->
      lexLoop fuel src re acc loc = Throw (LexSyntaxError e).
Proof.
  induction 1 as [loc | loc m toks loc' Hlt Hscan Hsteps IH];
    intros e Hbefore Hnone Herr fuel re acc Hre Hfuel.
  - destruct fuel as [|fuel]; [simpl in Hfuel; lia|].
    rewrite lexLoop_unfold, Hre, Hnone, Herr.
    destruct (index loc <? len src) eqn:E; [reflexivity | lia].
  - destruct fuel as [|fuel]; [simpl in Hfuel; lia|].
    rewrite lexLoop_unfold, Hre, Hscan.
    destruct (index loc <? len src) eqn:E; [|lia].
    apply (IH e); auto; [now rewrite matchNext_alts | simpl in Hfuel; lia].
Qed.

(** One step of a run consumes the text found at the position. *)
Lemma scan_advance (alts : list regex) (i : Z) (s : jsstring) (m : Match) :
  0 <= i ->
  scan alts i s = Return (Some m) ->
  i + len (text m) <= len s /\
  firstn (Z.to_nat i) s ++ text m = firstn (Z.to_nat (i + len (text m))) s.
Proof.
  intros Hi H. apply scan_text in H. destruct H as (e & He & Ht).
  assert (L : len (text m) = Z.of_nat (e - Z.to_nat i)).
  { unfold len. rewrite Ht, substring_length by exact He. reflexivity. }
  rewrite L. unfold len. split; [lia|].
  replace (Z.to_nat (i + Z.of_nat (e - Z.to_nat i))) with e by lia.
  rewrite Ht. apply firstn_substring. lia.
Qed.

Lemma steps_covers (src : jsstring) (alts : list regex)
  (loc : Location) (toks : list Token) (loc' : Location) :
  steps src alts loc toks loc' ->
  0 <= index loc <= len src ->
  0 <= index loc' <= len src /\
  firstn (Z.to_nat (index loc)) src ++ List.concat (map tok_text toks)
  = firstn (Z.to_nat (index loc')) src.
Proof.
  induction 1 as [loc | loc m toks loc' Hlt Hscan Hsteps IH]; intros Hloc.
  - split; [exact Hloc|]. simpl. now rewrite app_nil_r.
  - destruct (scan_advance _ _ _ _ (proj1 Hloc) Hscan) as [Hle Hfirst].
    pose proof (len_nonneg (text m)) as Hnn.
    destruct IH as [Hloc' Hcov].
    { rewrite nextLocation_index. lia. }
    split; [exact Hloc'|].
    cbn [map List.concat tok_text]. rewrite app_assoc, Hfirst.
    rewrite nextLocation_index in Hcov. exact Hcov.
Qed.

(** C1. Whenever [lex] returns a token sequence, the concatenation of the
    token texts, in order, is the source string. *)
Theorem lex_covers_source (fuel : nat) (src : jsstring) (regExps : PatternSet)
  (tokens : list Token) :
  lex fuel src regExps = Return tokens ->
  List.concat (map tok_text tokens) = src.
Proof.
  unfold lex. destruct (buildLexerRegExp regExps) as [re| |]; try discriminate.
  intros H. apply lexLoop_Return in H.
  destruct H as (toks & loc' & -> & Hs & Hend & _). cbn [app].
  apply steps_covers in Hs; [|cbn; pose proof (len_nonneg src); lia].
  destruct Hs as [Hloc' Hcov]. cbn in Hcov. rewrite Hcov.
  apply firstn_all2. unfold len in *. lia.
Qed.

Lemma lex_covers_source_witness :
  exists tokens,
    lex 3 (str "one 42") idNumWs = Return tokens /\
    List.concat (map tok_text tokens) = str "one 42".
Proof.
  eexists. split; [vm_compute; reflexivity|].
  apply (lex_covers_source 3 (str "one 42") idNumWs). vm_compute. reflexivity.
Defined.

(** ** Locations along a run *)

Lemma nextLocation_column_pos (loc : Location) (text : jsstring) :
  1 <= column loc -> 1 <= column (nextLocation loc text).
Proof.
  intros H. destruct (in_dec ascii_dec NL text) as [Hin|Hnin].
  - destruct (nextLocation_column_newline loc text Hin)
      as (pre & post & -> & _ & ->).
    rewrite len_app. unfold len. simpl List.length. lia.
  - rewrite nextLocation_column_same_line by exact Hnin.
    pose proof (len_nonneg text). lia.
Qed.

Lemma len_zero_nil (s : jsstring) : len s = 0 -> s = [].
Proof. destruct s; [reflexivity | unfold len; simpl; lia]. Qed.

Lemma locations_length (texts : list jsstring) :
  forall loc, List.length (locations loc texts) = S (List.length texts).
Proof.
  induction texts as [|t texts IH]; intros loc; simpl; [reflexivity|].
  now rewrite IH.
Qed.

Lemma locations_column (texts : list jsstring) :
  forall loc, 1 <= column loc ->
              Forall (fun l => 1 <= column l) (locations loc texts).
Proof.
  induction texts as [|t texts IH]; intros loc H; simpl.
  - constructor; [exact H | constructor].
  - constructor; [exact H|]. apply IH. now apply nextLocation_column_pos.
Qed.

Lemma locations_step (texts : list jsstring) :
  forall loc i a b,
    nth_error (locations loc texts) i = Some a ->
    nth_error (locations loc texts) (S i) = Some b ->
    exists t, nth_error texts i = Some t /\ b = nextLocation a t.
Proof.
  induction texts as [|t texts IH]; intros loc i a b Ha Hb.
  - simpl in Hb. destruct i; discriminate.
  - destruct i as [|i].
    + simpl in Ha. inversion Ha; subst a.
      cbn [locations nth_error] in Hb.
      destruct texts; simpl in Hb; inversion Hb; subst b; exists t; now split.
    + cbn [locations nth_error] in Ha, Hb. cbn [nth_error].
      exact (IH _ _ _ _ Ha Hb).
Qed.

Lemma steps_locations (src : jsstring) (alts : list regex)
  (loc : Location) (toks : list Token) (loc' : Location) :
  steps src alts loc toks loc' ->
  locations loc (map tok_text toks) = map tok_loc toks ++ [loc'].
Proof.
  induction 1 as [loc | loc m toks loc' Hlt Hscan Hsteps IH]; [reflexivity|].
  cbn [map locations tok_text tok_loc app]. now rewrite IH.
Qed.

(** C9. In a successful run the locations, from [{0, 1, 1}] on and updated
    by [nextLocation] after each token, are the locations of the tokens
    followed by the final one; every column is at least 1; from one
    location to the next neither the index nor the line decreases, and the
    index grows when the token text is not empty. *)
Theorem lex_locations_monotone (fuel : nat) (src : jsstring)
  (regExps : PatternSet) (tokens : list Token) :
  lex fuel src regExps = Return tokens ->
  let locs := locations origin (map tok_text tokens) in
  (exists final, locs = map tok_loc tokens ++ [final]) /\
  Forall (fun l => 1 <= column l) locs /\
  forall i a b,
    nth_error locs i = Some a ->
    nth_error locs (S i) = Some b ->
    index a <= index b /\
    line a <= line b /\
    (forall t, nth_error tokens i = Some t -> tok_text t <> [] ->
               index a < index b).
Proof.
  unfold lex. destruct (buildLexerRegExp regExps) as [re| |]; try discriminate.
  intros H. apply lexLoop_Return in H.
  destruct H as (toks & loc' & -> & Hs & _ & _). cbn [app] in *.
  split; [exists loc'; now apply (steps_locations src (re_alts re))|].
  split; [apply locations_column; cbn; lia|].
  intros i a b Ha Hb.
  destruct (locations_step _ _ _ _ _ Ha Hb) as (t & Ht & ->).
  rewrite nextLocation_index, nextLocation_line.
  pose proof (len_nonneg t) as Hnn.
  split; [lia | split; [lia|]].
  intros tok Htok Hne. rewrite nth_error_map, Htok in Ht.
  inversion Ht; subst t.
  assert (len (tok_text tok) <> 0) by (intros Z; now apply len_zero_nil in Z).
  lia.
Qed.

Lemma lex_locations_monotone_witness :
  exists tokens,
    lex 3 (str "one 42") idNumWs = Return tokens /\
    Forall (fun l => 1 <= column l) (locations origin (map tok_text tokens)).
Proof.
  eexists. split; [vm_compute; reflexivity|].
  apply (lex_locations_monotone 3 (str "one 42") idNumWs). vm_compute.
  reflexivity.
Defined.

(** ** Lines of the source *)

Lemma split_not_nil (c : ascii) (s : jsstring) : split c s <> [].
Proof.
  destruct s as [|x s]; simpl; [discriminate|].
  destruct (Ascii.eqb x c); [discriminate|].
  destruct (split c s); discriminate.
Qed.

Lemma split_cons_other (c x : ascii) (s : jsstring) :
  x <> c ->
  exists l ls, split c s = l :: ls /\ split c (x :: s) = (x :: l) :: ls.
Proof.
  intros Hne. simpl. apply Ascii.eqb_neq in Hne. rewrite Hne.
  destruct (split c s) as [|l ls] eqn:E; [now apply split_not_nil in E|].
  now exists l, ls.
Qed.

Lemma split_nth_after (c : ascii) (b tail : jsstring) (k : nat) :
  nth_error (split c (b ++ c :: tail)) (S (count_occ ascii_dec b c) + k)
  = nth_error (split c tail) k.
Proof.
  induction b as [|x b IH].
  - simpl. now rewrite Ascii.eqb_refl.
  - rewrite <- app_comm_cons. destruct (ascii_dec x c) as [->|Hne].
    + rewrite count_occ_cons_eq by reflexivity.
      cbn [split]. rewrite Ascii.eqb_refl. exact IH.
    + rewrite count_occ_cons_neq by exact Hne.
      destruct (split_cons_other c x (b ++ c :: tail) Hne) as (l & ls & E1 & E2).
      rewrite E2. rewrite E1 in IH. exact IH.
Qed.

Lemma split_nth_line (before tail : jsstring) :
  lineStart before ->
  nth_error (split NL (before ++ tail)) (count_occ ascii_dec before NL)
  = Some (firstLine tail).
Proof.
  unfold firstLine. intros [->|[b ->]].
  - simpl. destruct (split NL tail) eqn:E; [now apply split_not_nil in E|].
    reflexivity.
  - rewrite <- app_assoc. cbn [app].
    rewrite count_occ_app. cbn [count_occ].
    destruct (ascii_dec NL NL) as [_|N]; [|contradiction].
    replace (count_occ ascii_dec b NL + 1)%nat
      with (S (count_occ ascii_dec b NL) + 0)%nat by lia.
    rewrite split_nth_after.
    destruct (split NL tail) eqn:E; [now apply split_not_nil in E|].
    reflexivity.
Qed.

Lemma firstLine_app (cur rest : jsstring) :
  ~ In NL cur -> firstLine (cur ++ rest) = cur ++ firstLine rest.
Proof.
  unfold firstLine. induction cur as [|x cur IH]; intros H; [reflexivity|].
  rewrite <- app_comm_cons.
  assert (Hx : x <> NL) by (intros ->; apply H; now left).
  destruct (split_cons_other NL x (cur ++ rest) Hx) as (l & ls & E1 & E2).
  rewrite E2. cbn [hd app]. f_equal.
  rewrite <- IH by (intros Hin; apply H; now right).
  now rewrite E1.
Qed.

(** ** The location tracks the position *)

Lemma tracks_origin (src : jsstring) : tracks src origin.
Proof.
  split; [cbn; pose proof (len_nonneg src); lia|].
  exists [], []. cbn. repeat split; auto. now left.
Qed.

Lemma count_occ_absent (s : jsstring) (c : ascii) :
  ~ In c s -> count_occ ascii_dec s c = 0%nat.
Proof. apply count_occ_not_In. Qed.

Lemma tracks_next (src : jsstring) (loc : Location) (text : jsstring) :
  tracks src loc ->
  index loc + len text <= len src ->
  firstn (Z.to_nat (index loc)) src ++ text
  = firstn (Z.to_nat (index loc + len text)) src ->
  tracks src (nextLocation loc text).
Proof.
  intros [Hrange (before & cur & Hpre & Hstart & Hcur & Hline & Hcol)] Hle Hcov.
  pose proof (len_nonneg text) as Hnn.
  split; [rewrite nextLocation_index; lia|].
  rewrite nextLocation_index, <- Hcov, Hpre, nextLocation_line.
  destruct (in_dec ascii_dec NL text) as [Hin|Hnin].
  - destruct (nextLocation_column_newline loc text Hin)
      as (pre & post & E & Hpost & Hc).
    exists ((before ++ cur ++ pre) ++ [NL]), post.
    split; [rewrite E, <- !app_assoc; reflexivity|].
    split; [right; now eexists|].
    split; [exact Hpost|].
    split.
    + rewrite E, !count_occ_app. cbn [count_occ].
      destruct (ascii_dec NL NL) as [_|N]; [|contradiction].
      rewrite (count_occ_absent cur), (count_occ_absent post) by assumption.
      lia.
    + rewrite Hc, E, len_app. unfold len. simpl List.length. lia.
  - exists before, (cur ++ text).
    split; [now rewrite app_assoc|].
    split; [exact Hstart|].
    split; [intros Hin; apply in_app_or in Hin; tauto|].
    split.
    + rewrite (count_occ_absent text) by assumption. lia.
    + rewrite nextLocation_column_same_line by assumption.
      rewrite len_app. lia.
Qed.

Lemma steps_tracks (src : jsstring) (alts : list regex)
  (loc : Location) (toks : list Token) (loc' : Location) :
  steps src alts loc toks loc' -> tracks src loc -> tracks src loc'.
Proof.
  induction 1 as [loc | loc m toks loc' Hlt Hscan Hsteps IH]; intros Ht;
    [exact Ht|].
  apply IH. destruct (scan_advance _ _ _ _ (proj1 (proj1 Ht)) Hscan).
  now apply tracks_next.
Qed.

(** At a tracked location the constructor returns, and the line it prints
    is the line of the position: the [column - 1] characters before the
    position on its line, then the rest of the line. *)
Lemma newSyntaxError_tracked (src : jsstring) (loc : Location) (msg : jsstring) :
  tracks src loc ->
  exists cur,
    len cur = column loc - 1 /\
    (exists before, firstn (Z.to_nat (index loc)) src = before ++ cur /\
                    lineStart before) /\
    nth_error (split NL src) (Z.to_nat (line loc - 1))
    = Some (cur ++ firstLine (skipn (Z.to_nat (index loc)) src)) /\
    newSyntaxError loc src msg
    = Return (mkSyntaxError
                (numToString (line loc) ++ str ":" ++ numToString (column loc)
                 ++ str ": " ++ msg ++ [NL]
                 ++ (cur ++ firstLine (skipn (Z.to_nat (index loc)) src))
                 ++ [NL]
                 ++ repeat " "%char (Z.to_nat (column loc - 1)) ++ str "^")
                loc src).
Proof.
  intros [Hrange (before & cur & Hpre & Hstart & Hcur & Hline & Hcol)].
  exists cur. split; [lia|]. split; [now exists before|].
  assert (Hnth : nth_error (split NL src) (Z.to_nat (line loc - 1))
                 = Some (cur ++ firstLine (skipn (Z.to_nat (index loc)) src))).
  { rewrite <- (firstn_skipn (Z.to_nat (index loc)) src) at 1.
    rewrite Hpre, <- app_assoc.
    replace (Z.to_nat (line loc - 1)) with (count_occ ascii_dec before NL) by lia.
    rewrite split_nth_line by exact Hstart.
    now rewrite firstLine_app. }
  split; [exact Hnth|].
  unfold newSyntaxError, repeatSpace, elementText.
  pose proof (len_nonneg cur).
  destruct (column loc - 1 <? 0) eqn:C; [lia|].
  destruct (line loc - 1 <? 0) eqn:L; [lia|].
  rewrite Hnth. reflexivity.
Qed.

(** ** Syntax errors *)

(** C5. Every [SyntaxError] raised by [lex] has the message
    [{line}:{column}: Unknown token], a newline, the line of the source with
    that number, a newline, [column - 1] spaces and a caret; it carries the
    location and the source.  For ["one + 42"] and the pattern set
    [{id, num, ws}] the message is ["1:5: Unknown token\none + 42\n    ^"]. *)
Theorem syntaxError_message (fuel : nat) (src : jsstring)
  (regExps : PatternSet) (e : SyntaxError) :
  lex fuel src regExps = Throw (LexSyntaxError e) ->
  (exists lineText,
     nth_error (split NL src) (Z.to_nat (line (err_loc e) - 1)) = Some lineText /\
     1 <= line (err_loc e) /\
     1 <= column (err_loc e) /\
     message e
     = numToString (line (err_loc e)) ++ str ":"
       ++ numToString (column (err_loc e)) ++ str ": " ++ str "Unknown token"
       ++ [NL] ++ lineText ++ [NL]
       ++ repeat " "%char (Z.to_nat (column (err_loc e) - 1)) ++ str "^" /\
     err_src e = src) /\
  (exists e0,
     lex 3 (str "one + 42") idNumWs = Throw (LexSyntaxError e0) /\
     message e0
     = str "1:5: Unknown token" ++ [NL] ++ str "one + 42" ++ [NL] ++ str "    ^" /\
     err_loc e0 = mkLoc 4 1 5 /\
     err_src e0 = str "one + 42").
Proof.
  intros H. split.
  - unfold lex in H.
    destruct (buildLexerRegExp regExps) as [re| |]; try discriminate.
    apply lexLoop_Throw in H.
    destruct H as (toks & loc & Hs & _ & _ & He & _).
    apply steps_tracks in Hs; [|apply tracks_origin].
    destruct (newSyntaxError_tracked src loc (str "Unknown token") Hs)
      as (cur & Hcur & _ & Hnth & Hnew).
    rewrite Hnew in He. inversion He; subst e. cbn [err_loc message err_src].
    eexists. split; [exact Hnth|].
    destruct Hs as [_ (b & c & _ & _ & _ & Hl & Hc)].
    pose proof (len_nonneg c).
    repeat split; try lia.
  - eexists. split; [vm_compute; reflexivity|]. repeat split.
Qed.

Lemma syntaxError_message_witness :
  exists e lineText,
    lex 3 (str "one + 42") idNumWs = Throw (LexSyntaxError e) /\
    nth_error (split NL (str "one + 42")) (Z.to_nat (line (err_loc e) - 1))
    = Some lineText.
Proof.
  eexists.
  destruct (syntaxError_message 3 (str "one + 42") idNumWs
              (mkSyntaxError
                 (str "1:5: Unknown token" ++ [NL] ++ str "one + 42" ++ [NL]
                  ++ str "    ^")
                 (mkLoc 4 1 5) (str "one + 42")))
    as [(lineText & Hnth & _) _]; [vm_compute; reflexivity|].
  exists lineText. split; [vm_compute; reflexivity | exact Hnth].
Defined.

(** X4. The caret stands under the first character that no pattern matches:
    the line the error prints is the line of the source that holds the
    failing index, and the spaces before the caret are as many as the
    characters of that line before the failing index. *)
Lemma syntaxError_caret (fuel : nat) (src : jsstring) (regExps : PatternSet)
  (e : SyntaxError) :
  lex fuel src regExps = Throw (LexSyntaxError e) ->
  exists before cur,
    firstn (Z.to_nat (index (err_loc e))) src = before ++ cur /\
    lineStart before /\
    len cur = column (err_loc e) - 1 /\
    nth_error (split NL src) (Z.to_nat (line (err_loc e) - 1))
    = Some (cur ++ firstLine (skipn (Z.to_nat (index (err_loc e))) src)) /\
    0 <= index (err_loc e) < len src.
Proof.
  unfold lex. destruct (buildLexerRegExp regExps) as [re| |]; try discriminate.
  intros H. apply lexLoop_Throw in H.
  destruct H as (toks & loc & Hs & Hlt & _ & He & _).
  apply steps_tracks in Hs; [|apply tracks_origin].
  destruct (newSyntaxError_tracked src loc (str "Unknown token") Hs)
    as (cur & Hcur & (before & Hpre & Hstart) & Hnth & Hnew).
  rewrite Hnew in He. inversion He; subst e. cbn [err_loc].
  exists before, cur. repeat split; auto. apply Hs.
Qed.

(** X6. [lex] never throws the [RangeError] of [repeat]: the column it
    passes to the constructor is at least 1, whatever the source and the
    pattern set. *)
Lemma lex_no_RangeError (fuel : nat) (src : jsstring) (regExps : PatternSet) :
  lex fuel src regExps <> Throw RangeError.
Proof.
  unfold lex. destruct (buildLexerRegExp regExps) as [re| |]; try discriminate.
  assert (G : forall re' acc loc, tracks src loc ->
                lexLoop fuel src re' acc loc <> Throw RangeError).
  { induction fuel as [|fuel IH]; intros re' acc loc Ht.
    - cbn [lexLoop]. destruct (index loc <? len src); discriminate.
    - rewrite lexLoop_unfold. destruct (index loc <? len src); [|discriminate].
      destruct (scan (re_alts re') (index loc) src) as [[m|]| | |] eqn:S;
        try discriminate.
      + apply IH. destruct (scan_advance _ _ _ _ (proj1 (proj1 Ht)) S).
        now apply tracks_next.
      + destruct (newSyntaxError_tracked src loc (str "Unknown token") Ht)
          as (cur & _ & _ & _ & ->). discriminate.
      + apply scan_Throw in S. subst. discriminate. }
  apply G, tracks_origin.
Qed.

(** A run is determined by its start: two runs that end where [matchNext]
    answers [null] are the same run. *)
Lemma steps_deterministic (src : jsstring) (alts : list regex)
  (loc : Location) (toks1 : list Token) (loc1 : Location) :
  steps src alts loc toks1 loc1 ->
  scan alts (index loc1) src = Return None ->
  forall toks2 loc2,
    steps src alts loc toks2 loc2 ->
    scan alts (index loc2) src = Return None ->
    toks1 = toks2 /\ loc1 = loc2.
Proof.
  induction 1 as [loc | loc m toks loc' Hlt Hscan Hsteps IH];
    intros Hn toks2 loc2 H2 Hn2.
  - inversion H2 as [|? m2 ? ? ? Hscan2]; subst; [now split|]. congruence.
  - inversion H2 as [|? m2 ? ? ? Hscan2 Hsteps2]; subst; [congruence|].
    assert (m2 = m) by congruence. subst m2.
    destruct (IH Hn _ _ Hsteps2 Hn2) as [-> ->]. now split.
Qed.

(** C6. [lex] raises its [SyntaxError] exactly when a run from the origin
    reaches a location before the end of the source where [matchNext]
    answers [null]; then no token sequence is returned, and the error
    carries that location and the source. *)
Theorem lex_SyntaxError_iff (fuel : nat) (src : jsstring)
  (regExps : PatternSet) (re : RegExp) :
  buildLexerRegExp regExps = Parsed re ->
  ((exists e, lex fuel src regExps = Throw (LexSyntaxError e)) <->
   (exists toks loc,
      steps src (re_alts re) origin toks loc /\
      (List.length toks < fuel)%nat /\
      index loc < len src /\
      scan (re_alts re) (index loc) src = Return None)) /\
  (forall e,
     lex fuel src regExps = Throw (LexSyntaxError e) ->
     (forall tokens, lex fuel src regExps <> Return tokens) /\
     exists toks loc,
       steps src (re_alts re) origin toks loc /\
       index loc < len src /\
       scan (re_alts re) (index loc) src = Return None /\
       err_loc e = loc /\
       err_src e = src).
Proof.
  intros Hre. unfold lex. rewrite Hre. split; [split|].
  - intros [e H]. apply lexLoop_Throw in H.
    destruct H as (toks & loc & Hs & Hlt & Hn & _ & Hlen).
    now exists toks, loc.
  - intros (toks & loc & Hs & Hlen & Hlt & Hn).
    assert (Ht : tracks src loc)
      by (eapply steps_tracks; [exact Hs | apply tracks_origin]).
    destruct (newSyntaxError_tracked src loc (str "Unknown token") Ht)
      as (cur & _ & _ & _ & Hnew).
    eexists. eapply steps_lexLoop_Throw; eauto.
  - intros e H. split; [intros tokens; rewrite H; discriminate|].
    apply lexLoop_Throw in H.
    destruct H as (toks & loc & Hs & Hlt & Hn & He & _).
    exists toks, loc. repeat split; auto.
    + unfold newSyntaxError in He.
      destruct (repeatSpace (column loc - 1)); inversion He; reflexivity.
    + unfold newSyntaxError in He.
      destruct (repeatSpace (column loc - 1)); inversion He; reflexivity.
Qed.

Lemma lex_SyntaxError_iff_witness :
  exists re,
    buildLexerRegExp idNumWs = Parsed re /\
    ((exists e, lex 3 (str "one + 42") idNumWs = Throw (LexSyntaxError e)) <->
     (exists toks loc,
        steps (str "one + 42") (re_alts re) origin toks loc /\
        (List.length toks < 3)%nat /\
        index loc < len (str "one + 42") /\
        scan (re_alts re) (index loc) (str "one + 42") = Return None)).
Proof.
  eexists. split; [vm_compute; reflexivity|].
  apply (lex_SyntaxError_iff 3 (str "one + 42") idNumWs). vm_compute.
  reflexivity.
Defined.

(** ** Termination *)

Lemma scan_cases (alts : list regex) (i : Z) (s : jsstring) :
  (exists r, scan alts i s = Return r) \/ scan alts i s = Throw TypeError.
Proof.
  rewrite scan_eq.
  destruct (Nat.ltb (List.length s) (Z.to_nat i)); [left; now eexists|].
  destruct (matchRegex s (disjunction alts) _ _); [|left; now eexists].
  destruct (groupNames (disjunction alts)); [now right | left; now eexists].
Qed.

Lemma newSyntaxError_cases (loc : Location) (src msg : jsstring) :
  (exists e, newSyntaxError loc src msg = Return e) \/
  newSyntaxError loc src msg = Throw RangeError.
Proof.
  unfold newSyntaxError, repeatSpace.
  destruct (column loc - 1 <? 0); [now right | left; now eexists].
Qed.







(** ** The empty pattern set *)

(** C10, as amended.  For the empty pattern set and a non-empty source,
    [lex] ends in its first iteration with a [TypeError]: the empty pattern
    matches the empty string at index 0, it has no named group, so
    [match.groups] is [undefined] and [Object.keys] throws. *)
Theorem lex_empty_pattern_set (fuel : nat) (src : jsstring) :
  src <> [] ->
  buildLexerRegExp [] = Parsed (mkRegExp [REmpty] 0) /\
  scan [REmpty] 0 src = Throw TypeError /\
  lex (S fuel) src [] = Throw TypeError.
Proof.
  intros Hne.
  assert (B : buildLexerRegExp [] = Parsed (mkRegExp [REmpty] 0))
    by reflexivity.
  assert (S : scan [REmpty] 0 src = Throw TypeError) by (now rewrite scan_eq).
  split; [exact B | split; [exact S|]].
  unfold lex. rewrite B, lexLoop_unfold. cbn [re_alts index origin].
  rewrite S.
  assert (L : (0 <? len src) = true).
  { apply Z.ltb_lt. destruct src; [congruence | unfold len; simpl; lia]. }
  now rewrite L.
Qed.

Lemma lex_empty_pattern_set_witness :
  lex 1 (str "x") [] = Throw TypeError.
Proof.
  apply (lex_empty_pattern_set 0 (str "x")). discriminate.
Defined.

(** C10, as stated, fails: with the empty pattern set [lex] does not run
    forever on ["x"]. *)
Lemma lex_empty_pattern_set_counterexample :
  ~ (forall fuel, lex fuel (str "x") [] = OutOfFuel).
Proof.
  intros H. specialize (H 1%nat). vm_compute in H. discriminate.
Qed.

(** The loop that never ends is that of a pattern matching the empty
    string: with [{a: /x*/}] on ["y"], [matchNext] answers an empty text with
    an undefined kind, the location stays, and no fuel is enough. *)
Lemma lex_empty_match_loops (fuel : nat) :
  lex fuel (str "y") [(str "a", mkPattern (str "x*"))] = OutOfFuel.
Proof.
  unfold lex.
  destruct (buildLexerRegExp [(str "a", mkPattern (str "x*"))]) as [re| |] eqn:B;
    try (vm_compute in B; discriminate).
  assert (A : re_alts re = [RSeq (RGroup (Some (str "a"))
                (RSeq (RRepeat 0 None true (RSet (CSChar "x"))) REmpty)) REmpty])
    by (vm_compute in B; now inversion B).
  clear B. generalize (@nil Token). revert re A.
  induction fuel as [|fuel IH]; intros re A acc; [reflexivity|].
  rewrite lexLoop_unfold, A.
  change (index origin <? len (str "y")) with true. cbv iota.
  change (scan _ (index origin) (str "y"))
    with (@Return (option Match) (Some (mkMatchResult None []))).
  cbv iota. cbn [text kind].
  change (nextLocation origin []) with origin.
  apply IH. now rewrite matchNext_alts.
Qed.

(** ** The scanner of pattern texts is compositional *)

Lemma pbind_assoc {A B C} (p : parse A) (f : A -> parse B) (g : B -> parse C) :
  pbind (pbind p f) g = pbind p (fun a => pbind (f a) g).
Proof. destruct p; reflexivity. Qed.

Lemma pbind_ext {A B} (p : parse A) (f g : A -> parse B) :
  (forall a, f a = g a) -> pbind p f = pbind p g.
Proof. intros H. destruct p; simpl; auto. Qed.

Lemma pbind_Parsed {A B} (p : parse A) (f : A -> parse B) (b : B) :
  pbind p f = Parsed b -> exists a, p = Parsed a /\ f a = Parsed b.
Proof. destruct p; simpl; intros H; try discriminate. now exists a. Qed.

Lemma tscan_app (s1 s2 : jsstring) :
  forall st, tscan st (s1 ++ s2) = pbind (tscan st s1) (fun st' => tscan st' s2).
Proof.
  induction s1 as [|c s1 IH]; intros st; [reflexivity|].
  cbn [app tscan]. rewrite pbind_assoc. apply pbind_ext. exact IH.
Qed.

Ltac split_ifs :=
  repeat match goal with
         | |- context [if ?b then _ else _] => destruct b
         end.

Lemma stepNormal_base (base toks : list token) (c : ascii) :
  stepNormal (toks ++ base) c
  = pbind (stepNormal toks c) (fun st => Parsed (addBase base st)).
Proof. unfold stepNormal. split_ifs; reflexivity. Qed.

Lemma stepClass_base (neg : bool) (acc : list catom) (base toks : list token)
  (c : ascii) :
  stepClass neg acc (toks ++ base) c
  = pbind (stepClass neg acc toks c) (fun st => Parsed (addBase base st)).
Proof.
  unfold stepClass. split_ifs; try reflexivity.
  destruct (resolveRanges (rev acc)); reflexivity.
Qed.

Lemma tstep_base (base : list token) (st : tstate) (c : ascii) :
  tstep (addBase base st) c
  = pbind (tstep st c) (fun st' => Parsed (addBase base st')).
Proof.
  destruct st as [mode toks]. unfold addBase. cbn [fst snd].
  destruct mode; cbn [tstep];
    try apply stepNormal_base; try apply stepClass_base.
  - destruct (escapeAtom c); [reflexivity|]. split_ifs; reflexivity.
  - destruct (Ascii.eqb c "?"); [reflexivity|].
    apply (stepNormal_base base (TOpen None :: toks)).
  - split_ifs; reflexivity.
  - split_ifs; reflexivity.
  - split_ifs; reflexivity.
  - destruct (Ascii.eqb c "^"); [reflexivity | apply stepClass_base].
  - destruct (escapeAtom c); [reflexivity|]. split_ifs; reflexivity.
Qed.

Lemma tscan_base (base : list token) (s : jsstring) :
  forall st,
    tscan (addBase base st) s
    = pbind (tscan st s) (fun st' => Parsed (addBase base st')).
Proof.
  induction s as [|c s IH]; intros st; [reflexivity|].
  cbn [tscan]. rewrite tstep_base, !pbind_assoc. apply pbind_ext.
  intros st'. cbn [pbind]. apply IH.
Qed.

Lemma tfinish_base (base : list token) (st : tstate) :
  tfinish (addBase base st)
  = pbind (tfinish st) (fun toks => Parsed (rev base ++ toks)).
Proof.
  destruct st as [mode toks]. unfold addBase. cbn [fst snd].
  destruct mode; cbn [tfinish pbind]; try reflexivity.
  - now rewrite rev_app_distr.
  - cbn [rev]. now rewrite rev_app_distr, app_assoc.
Qed.

(** The tokens of [s1|s2] are the tokens of [s1], a bar and the tokens of
    [s2]. *)
Lemma tokenize_bar (s1 s2 : jsstring) (t1 : list token) :
  tokenize s1 = Parsed t1 ->
  tokenize (s1 ++ "|"%char :: s2)
  = pbind (tokenize s2) (fun t2 => Parsed (t1 ++ TBar :: t2)).
Proof.
  unfold tokenize. intros H. apply pbind_Parsed in H.
  destruct H as ([mode toks] & Hscan & Hfin).
  rewrite tscan_app, Hscan. cbn [pbind tscan].
  assert (Hstep : tstep (mode, toks) "|"%char
                  = Parsed (addBase (TBar :: rev t1) (MNormal, []))).
  { destruct mode; cbn [tfinish] in Hfin; try discriminate;
      inversion Hfin; subst t1.
    - now rewrite rev_involutive.
    - change (rev toks ++ [TOpen None]) with (rev (TOpen None :: toks)).
      now rewrite rev_involutive. }
  rewrite Hstep. cbn [pbind]. rewrite tscan_base, !pbind_assoc.
  apply pbind_ext. intros st. cbn [pbind]. rewrite tfinish_base.
  apply pbind_ext. intros t2. cbn [rev]. rewrite rev_involutive.
  now rewrite <- app_assoc.
Qed.

(** ** The parser of tokens is compositional *)

Lemma prun_app (t1 t2 : list token) :
  forall st, prun st (t1 ++ t2) = pbind (prun st t1) (fun st' => prun st' t2).
Proof.
  induction t1 as [|t t1 IH]; intros st; [reflexivity|].
  cbn [app prun]. rewrite pbind_assoc. apply pbind_ext. exact IH.
Qed.

Lemma rebase_cons2 (name : option jsstring) (base : list regex)
  (f g : frame) (rest : list frame) :
  rebase name base (f :: g :: rest) = f :: rebase name base (g :: rest).
Proof. reflexivity. Qed.

Lemma pstep_rebase (name : option jsstring) (base : list regex)
  (stack : list frame) (t : token) :
  pstep (rebase name base stack) t
  = pbind (pstep stack t) (fun st => Parsed (rebase name base st)).
Proof.
  destruct stack as [|f [|g rest]]; [reflexivity| |].
  - cbn [rebase]. destruct t; try reflexivity.
    unfold pstep, applyQuant. cbn [f_q f_seq f_name f_alts].
    destruct (f_q f); try reflexivity.
    + destruct (f_seq f); [reflexivity|]. destruct (quantBounds q). reflexivity.
    + destruct (f_seq f) as [|r seq]; [reflexivity|].
      destruct r; try reflexivity. destruct greedy; [|reflexivity].
      destruct q; reflexivity.
  - rewrite rebase_cons2. destruct t; try reflexivity.
    + cbn [pstep pbind]. destruct rest; reflexivity.
    + cbn [pstep]. destruct (applyQuant f q); reflexivity.
Qed.

Lemma prun_rebase (name : option jsstring) (base : list regex)
  (toks : list token) :
  forall stack,
    prun (rebase name base stack) toks
    = pbind (prun stack toks) (fun st => Parsed (rebase name base st)).
Proof.
  induction toks as [|t toks IH]; intros stack; [reflexivity|].
  cbn [prun]. rewrite pstep_rebase, !pbind_assoc. apply pbind_ext.
  intros st. cbn [pbind]. apply IH.
Qed.

(** The alternatives of [t1 | t2] are those of [t1] followed by those of
    [t2]. *)
Lemma parseAlternatives_bar (t1 t2 : list token) (a1 : list regex) :
  parseAlternatives t1 = Parsed a1 ->
  parseAlternatives (t1 ++ TBar :: t2)
  = pbind (parseAlternatives t2) (fun a2 => Parsed (a1 ++ a2)).
Proof.
  unfold parseAlternatives. intros H. apply pbind_Parsed in H.
  destruct H as (st1 & Hrun & Hfin).
  destruct st1 as [|f1 [|? ?]]; try discriminate. inversion Hfin; subst a1.
  rewrite prun_app, Hrun. cbn [pbind prun pstep].
  change [mkFrame (f_name f1) (mkSeq (rev (f_seq f1)) :: f_alts f1) [] QNone]
    with (rebase (f_name f1) (mkSeq (rev (f_seq f1)) :: f_alts f1) [topFrame]).
  rewrite prun_rebase, !pbind_assoc. apply pbind_ext. intros st. cbn [pbind].
  destruct st as [|f2 [|g rest]]; [reflexivity| |].
  - cbn [rebase pbind]. unfold frameAlts. cbn [f_seq f_alts].
    cbn [rev]. rewrite rev_app_distr. cbn [rev]. now rewrite <- !app_assoc.
  - rewrite rebase_cons2. destruct rest; reflexivity.
Qed.

Lemma compileAlts_bar (s1 s2 : jsstring) (a1 : list regex) :
  compileAlts s1 = Parsed a1 ->
  compileAlts (s1 ++ "|"%char :: s2)
  = pbind (compileAlts s2) (fun a2 => Parsed (a1 ++ a2)).
Proof.
  unfold compileAlts. intros H. apply pbind_Parsed in H.
  destruct H as (t1 & Htok & Hparse).
  rewrite (tokenize_bar s1 s2 t1 Htok), !pbind_assoc. apply pbind_ext.
  intros t2. cbn [pbind]. now apply parseAlternatives_bar.
Qed.

(** ** Group names of a parsed pattern *)

Lemma namesOf_app (l1 l2 : list regex) :
  namesOf (l1 ++ l2) = namesOf l1 ++ namesOf l2.
Proof. unfold namesOf. now rewrite map_app, concat_app. Qed.

Lemma groupNames_mkSeq (l : list regex) : groupNames (mkSeq l) = namesOf l.
Proof.
  induction l as [|r l IH]; [reflexivity|].
  cbn [mkSeq groupNames]. now rewrite IH.
Qed.

Lemma groupNames_mkAlt (rest : list regex) :
  forall a, groupNames (mkAlt a rest) = namesOf (a :: rest).
Proof.
  induction rest as [|b rest IH]; intros a.
  - unfold namesOf. cbn. now rewrite app_nil_r.
  - cbn [mkAlt groupNames]. rewrite IH. reflexivity.
Qed.

Lemma groupNames_disjunction (l : list regex) :
  groupNames (disjunction l) = namesOf l.
Proof. destruct l; [reflexivity | apply groupNames_mkAlt]. Qed.

Lemma groupNames_frameRegex (f : frame) :
  groupNames (frameRegex f)
  = namesOf (rev (f_alts f)) ++ namesOf (rev (f_seq f)).
Proof.
  unfold frameRegex, frameAlts. rewrite groupNames_disjunction.
  cbn [rev]. rewrite namesOf_app. f_equal.
  unfold namesOf. cbn. now rewrite app_nil_r, groupNames_mkSeq.
Qed.

Lemma frameNames_pushTerm (f : frame) (r : regex) (q : qstate) :
  frameNames (pushTerm f r q) = frameNames f ++ groupNames r.
Proof.
  unfold frameNames, pushTerm. cbn [f_name f_alts f_seq rev].
  rewrite namesOf_app, <- !app_assoc. do 2 f_equal.
  unfold namesOf. cbn. now rewrite app_nil_r.
Qed.

Lemma stackNames_cons (f : frame) (st : list frame) :
  stackNames (f :: st) = stackNames st ++ frameNames f.
Proof.
  unfold stackNames. cbn [rev]. rewrite map_app, concat_app. cbn.
  now rewrite app_nil_r.
Qed.

Lemma applyQuant_names (f f' : frame) (q : quantifier) :
  applyQuant f q = Parsed f' -> frameNames f' = frameNames f.
Proof.
  unfold applyQuant, frameNames.
  destruct (f_q f); [discriminate| |].
  - destruct (f_seq f) as [|r seq] eqn:E; [discriminate|].
    destruct (quantBounds q). intros H. inversion H; subst f'.
    cbn [f_name f_alts f_seq rev]. now rewrite !namesOf_app.
  - destruct (f_seq f) as [|r seq] eqn:E; [discriminate|].
    destruct r; try discriminate. destruct greedy; [|discriminate].
    destruct q; try discriminate. intros H. inversion H; subst f'.
    cbn [f_name f_alts f_seq rev]. now rewrite !namesOf_app.
Qed.

Lemma pstep_names (st st' : list frame) (t : token) :
  pstep st t = Parsed st' -> stackNames st' = stackNames st ++ tokenNames [t].
Proof.
  destruct st as [|f below]; [discriminate|]. destruct t; cbn [pstep].
  - intros H. inversion H; subst st'.
    rewrite !stackNames_cons, frameNames_pushTerm. cbn.
    now rewrite !app_nil_r.
  - intros H. inversion H; subst st'.
    rewrite !stackNames_cons, frameNames_pushTerm. cbn.
    now rewrite !app_nil_r.
  - intros H. inversion H; subst st'.
    rewrite (stackNames_cons (mkFrame name [] [] QNone)).
    f_equal. unfold frameNames. cbn. rewrite app_nil_r.
    destruct name; reflexivity.
  - destruct below as [|p below]; [discriminate|].
    intros H. inversion H; subst st'.
    rewrite !stackNames_cons, frameNames_pushTerm. cbn [tokenNames].
    rewrite app_nil_r, <- app_assoc. do 2 f_equal.
    unfold frameNames. cbn [groupNames optName].
    rewrite groupNames_frameRegex. destruct (f_name f); reflexivity.
  - intros H. inversion H; subst st'.
    rewrite !stackNames_cons. cbn [tokenNames]. rewrite app_nil_r. f_equal.
    unfold frameNames. cbn [f_name f_alts f_seq rev].
    rewrite namesOf_app. unfold namesOf at 3 4. cbn.
    now rewrite !app_nil_r, groupNames_mkSeq.
  - intros H. apply pbind_Parsed in H. destruct H as (f' & Hq & H).
    inversion H; subst st'. rewrite !stackNames_cons. cbn [tokenNames].
    rewrite app_nil_r. f_equal. now apply applyQuant_names in Hq.
Qed.

Lemma tokenNames_app (t1 t2 : list token) :
  tokenNames (t1 ++ t2) = tokenNames t1 ++ tokenNames t2.
Proof.
  induction t1 as [|t t1 IH]; [reflexivity|].
  destruct t as [| |[n|]| | |]; cbn [app tokenNames]; now rewrite IH.
Qed.

Lemma prun_names (toks : list token) :
  forall st st',
    prun st toks = Parsed st' ->
    stackNames st' = stackNames st ++ tokenNames toks.
Proof.
  induction toks as [|t toks IH]; intros st st' H.
  - inversion H. cbn. now rewrite app_nil_r.
  - cbn [prun] in H. apply pbind_Parsed in H. destruct H as (st1 & Hs & H).
    rewrite (IH _ _ H), (pstep_names _ _ _ Hs), <- app_assoc.
    f_equal. exact (eq_sym (tokenNames_app [t] toks)).
Qed.

(** The frame at the bottom of the stack keeps its name. *)
Lemma pstep_bottom (st st' : list frame) (t : token) :
  pstep st t = Parsed st' ->
  f_name (last st' topFrame) = f_name (last st topFrame).
Proof.
  destruct st as [|f below]; [discriminate|]. destruct t; cbn [pstep].
  - intros H. inversion H. destruct below; reflexivity.
  - intros H. inversion H. destruct below; reflexivity.
  - intros H. inversion H. reflexivity.
  - destruct below as [|p below]; [discriminate|].
    intros H. inversion H. destruct below; reflexivity.
  - intros H. inversion H. destruct below; reflexivity.
  - intros H. apply pbind_Parsed in H. destruct H as (f' & Hq & H).
    inversion H. destruct below; [|reflexivity]. cbn [last].
    unfold applyQuant in Hq.
    destruct (f_q f); [discriminate| |];
      destruct (f_seq f) as [|r seq]; try discriminate.
    + destruct (quantBounds q). now inversion Hq.
    + destruct r; try discriminate. destruct greedy; [|discriminate].
      destruct q; try discriminate. now inversion Hq.
Qed.

Lemma prun_bottom (toks : list token) :
  forall st st',
    prun st toks = Parsed st' ->
    f_name (last st' topFrame) = f_name (last st topFrame).
Proof.
  induction toks as [|t toks IH]; intros st st' H.
  - now inversion H.
  - cbn [prun] in H. apply pbind_Parsed in H. destruct H as (st1 & Hs & H).
    rewrite (IH _ _ H). now apply pstep_bottom in Hs.
Qed.

(** The group names of a pattern are the names its tokens open. *)
Lemma parseAlternatives_names (toks : list token) (alts : list regex) :
  parseAlternatives toks = Parsed alts ->
  groupNames (disjunction alts) = tokenNames toks.
Proof.
  unfold parseAlternatives. intros H. apply pbind_Parsed in H.
  destruct H as (st & Hrun & Hfin).
  destruct st as [|f [|? ?]]; try discriminate. inversion Hfin; subst alts.
  pose proof (prun_names _ _ _ Hrun) as Hn.
  pose proof (prun_bottom _ _ _ Hrun) as Hb. cbn in Hb.
  change (disjunction (frameAlts f)) with (frameRegex f).
  rewrite groupNames_frameRegex.
  unfold stackNames in Hn. cbn in Hn. rewrite app_nil_r in Hn.
  unfold frameNames in Hn. rewrite Hb in Hn. exact Hn.
Qed.

(** ** Early errors *)

Lemma NoDup_app_disjoint {A} (l1 l2 : list A) :
  NoDup (l1 ++ l2) -> forall a, In a l1 -> ~ In a l2.
Proof.
  induction l1 as [|x l1 IH]; intros H a Ha; [destruct Ha|].
  cbn [app] in H. inversion H as [|? ? Hx Hrest]; subst.
  destruct Ha as [->|Ha].
  - intros Hin. apply Hx. apply in_or_app. now right.
  - now apply IH.
Qed.

Lemma earlyErrors_NoDup (r : regex) :
  earlyErrors r = Parsed tt -> NoDup (groupNames r).
Proof.
  induction r as [ | cs | a | r1 IH1 r2 IH2 | r1 IH1 r2 IH2
                 | min max greedy r1 IH1 | name r1 IH1 ];
    cbn [earlyErrors groupNames]; intros H; try constructor.
  - apply pbind_Parsed in H. destruct H as ([] & H1 & H).
    apply pbind_Parsed in H. destruct H as ([] & H2 & H).
    destruct (disjointb (groupNames r1) (groupNames r2)) eqn:D; [|discriminate].
    apply NoDup_app; auto. now apply disjointb_spec.
  - apply pbind_Parsed in H. destruct H as ([] & H1 & H).
    apply pbind_Parsed in H. destruct H as ([] & H2 & H).
    destruct (disjointb (groupNames r1) (groupNames r2)) eqn:D; [|discriminate].
    apply NoDup_app; auto. now apply disjointb_spec.
  - auto.
  - destruct name as [n|]; [|auto].
    apply pbind_Parsed in H. destruct H as ([] & H1 & H).
    destruct (mem n (groupNames r1)) eqn:M; [discriminate|].
    constructor; [now apply mem_false | auto].
Qed.

Lemma disjunction_cons (a b : regex) (rest : list regex) :
  disjunction (a :: b :: rest) = RAlt a (disjunction (b :: rest)).
Proof. reflexivity. Qed.

Lemma disjointb_app_r (l l1 l2 : list jsstring) :
  disjointb l (l1 ++ l2) = true -> disjointb l l1 = true.
Proof.
  rewrite !disjointb_spec. intros H n Hn Hin. apply (H n Hn).
  apply in_or_app. now left.
Qed.

(** A pattern that passes the early errors does so alternative by
    alternative. *)
Lemma earlyErrors_app (A B : list regex) :
  A <> [] -> B <> [] ->
  earlyErrors (disjunction (A ++ B)) = Parsed tt ->
  earlyErrors (disjunction A) = Parsed tt /\
  earlyErrors (disjunction B) = Parsed tt.
Proof.
  intros HA HB. induction A as [|a A IH]; [congruence|]. clear HA.
  destruct B as [|b B]; [congruence|].
  destruct A as [|a' A].
  - cbn [app]. rewrite disjunction_cons. cbn [earlyErrors]. intros H.
    apply pbind_Parsed in H. destruct H as ([] & H1 & H).
    apply pbind_Parsed in H. destruct H as ([] & H2 & H).
    split; assumption.
  - cbn [app]. rewrite !disjunction_cons. cbn [earlyErrors]. intros H.
    apply pbind_Parsed in H. destruct H as ([] & H1 & H).
    apply pbind_Parsed in H. destruct H as ([] & H2 & H).
    destruct (IH ltac:(discriminate) H2) as [IA IB].
    split; [|exact IB]. rewrite H1, IA. cbn [pbind].
    destruct (disjointb _ _) eqn:D in H; [|discriminate].
    change (a' :: A ++ b :: B) with ((a' :: A) ++ b :: B) in D.
    rewrite groupNames_disjunction, namesOf_app in D.
    rewrite groupNames_disjunction. now rewrite (disjointb_app_r _ _ _ D).
Qed.

Lemma parseAlternatives_not_nil (toks : list token) (alts : list regex) :
  parseAlternatives toks = Parsed alts -> alts <> [].
Proof.
  unfold parseAlternatives. intros H. apply pbind_Parsed in H.
  destruct H as (st & _ & H). destruct st as [|f [|? ?]]; try discriminate.
  inversion H. unfold frameAlts. cbn [rev].
  intros E. now apply app_eq_nil in E.
Qed.

Lemma compileAlts_not_nil (s : jsstring) (alts : list regex) :
  compileAlts s = Parsed alts -> alts <> [].
Proof.
  unfold compileAlts. intros H. apply pbind_Parsed in H.
  destruct H as (toks & _ & H). now apply parseAlternatives_not_nil in H.
Qed.

(** ** A pattern that starts with a named group has a named group *)

Lemma tscan_extends (s : jsstring) (mode mode' : tmode) (toks toks' : list token) :
  tscan (mode, toks) s = Parsed (mode', toks') ->
  exists new, toks' = new ++ toks.
Proof.
  intros H. change (mode, toks) with (addBase toks (mode, [])) in H.
  rewrite tscan_base in H. apply pbind_Parsed in H.
  destruct H as ([m0 t0] & _ & H). inversion H. now exists t0.
Qed.

Lemma tfinish_oldest (st : tstate) (toks front : list token) (t : token) :
  snd st = front ++ [t] -> tfinish st = Parsed toks ->
  exists toks', toks = t :: toks'.
Proof.
  destruct st as [mode ts]. cbn [snd]. intros -> H.
  destruct mode; cbn [tfinish] in H; try discriminate; inversion H.
  - rewrite rev_app_distr. now eexists.
  - cbn [rev]. rewrite rev_app_distr. now eexists.
Qed.

Lemma tscan_name_head (s : jsstring) :
  forall mode st toks,
    mode = MParenQLt \/ (exists acc, mode = MName acc) ->
    tscan (mode, []) s = Parsed st ->
    tfinish st = Parsed toks ->
    exists n toks', toks = TOpen (Some n) :: toks'.
Proof.
  induction s as [|c s IH]; intros mode st toks Hmode Hscan Hfin.
  - inversion Hscan; subst st.
    destruct Hmode as [->|[acc ->]]; discriminate.
  - cbn [tscan] in Hscan. apply pbind_Parsed in Hscan.
    destruct Hscan as (st1 & Hstep & Hscan).
    destruct Hmode as [->|[acc ->]]; cbn [tstep] in Hstep.
    + destruct (Ascii.eqb c "=" || Ascii.eqb c "!")%bool; [discriminate|].
      destruct (isIdStart c).
      * inversion Hstep; subst st1.
        apply (IH (MName [c]) st toks); eauto.
      * destruct (negb (isAscii c) || Ascii.eqb c "\")%bool; discriminate.
    + destruct (Ascii.eqb c ">").
      * inversion Hstep; subst st1. destruct st as [mode' toks'].
        apply tscan_extends in Hscan. destruct Hscan as (new & ->).
        destruct (tfinish_oldest (mode', new ++ [TOpen (Some (rev acc))])
                    toks new _ eq_refl Hfin) as (toks'' & ->).
        now eexists _, _.
      * destruct (isIdPart c).
        -- inversion Hstep; subst st1.
           apply (IH (MName (c :: acc)) st toks); eauto.
        -- destruct (negb (isAscii c) || Ascii.eqb c "\")%bool; discriminate.
Qed.

Lemma compileAlts_group_names (rest : jsstring) (alts : list regex) :
  compileAlts ("("%char :: "?"%char :: "<"%char :: rest) = Parsed alts ->
  namesOf alts <> [].
Proof.
  unfold compileAlts, tokenize. intros H.
  apply pbind_Parsed in H. destruct H as (toks & Htok & Hparse).
  apply pbind_Parsed in Htok. destruct Htok as (st & Hscan & Hfin).
  change (tscan (MNormal, []) ("("%char :: "?"%char :: "<"%char :: rest))
    with (tscan (MParenQLt, []) rest) in Hscan.
  destruct (tscan_name_head rest MParenQLt st toks (or_introl eq_refl) Hscan Hfin)
    as (n & toks' & ->).
  apply parseAlternatives_names in Hparse.
  rewrite groupNames_disjunction in Hparse. rewrite Hparse. discriminate.
Qed.

(** ** Alternatives are tried in order *)

Lemma orElse_assoc (a b c : option mstate) :
  orElse (orElse a b) c = orElse a (orElse b c).
Proof. destruct a; reflexivity. Qed.

Lemma matchRegex_disjunction_app (s : jsstring) (A B : list regex)
  (x : mstate) (c : cont) :
  A <> [] -> B <> [] ->
  matchRegex s (disjunction (A ++ B)) x c
  = orElse (matchRegex s (disjunction A) x c)
           (matchRegex s (disjunction B) x c).
Proof.
  intros HA HB. induction A as [|a A IH]; [congruence|]. clear HA.
  destruct B as [|b B]; [congruence|].
  destruct A as [|a' A].
  - reflexivity.
  - cbn [app]. rewrite !disjunction_cons. cbn [matchRegex].
    rewrite orElse_assoc. f_equal. apply IH. discriminate.
Qed.

(** After a match of [r] from a state without captures, only the groups of
    [r] can hold a capture. *)
Lemma matchRegex_captures (s : jsstring) (r : regex) (i : nat) (y : mstate)
  (n : jsstring) :
  (i <= List.length s)%nat ->
  matchRegex s r (mkState i []) (fun y => Some y) = Some y ->
  ~ In n (groupNames r) ->
  lookup n (caps y) = None.
Proof.
  intros Hi H Hn. apply matchRegex_regular in H; [|exact Hi].
  destruct H as (y' & [_ L] & Hy). inversion Hy; subst y'.
  now rewrite (L n Hn).
Qed.

Lemma scan_app (A B : list regex) (i : Z) (s : jsstring) :
  A <> [] -> B <> [] ->
  namesOf A <> [] -> namesOf B <> [] ->
  NoDup (namesOf A ++ namesOf B) ->
  scan (A ++ B) i s
  = match scan A i s with
    | Return None => scan B i s
    | r => r
    end.
Proof.
  intros HA HB HnA HnB Hnd. rewrite !scan_eq.
  destruct (Nat.ltb (List.length s) (Z.to_nat i)) eqn:L; [reflexivity|].
  apply Nat.ltb_ge in L.
  rewrite matchRegex_disjunction_app by assumption.
  rewrite !groupNames_disjunction, namesOf_app.
  pose proof (NoDup_app_disjoint _ _ Hnd) as Hdisj.
  destruct (matchRegex s (disjunction A) _ _) as [y|] eqn:MA; cbn [orElse].
  - assert (F : find (fun k => truthy (lookup k (caps y))) (namesOf A ++ namesOf B)
                = find (fun k => truthy (lookup k (caps y))) (namesOf A)).
    { rewrite find_app. destruct (find _ (namesOf A)); [reflexivity|].
      apply find_none_all. intros n Hn.
      rewrite (matchRegex_captures s (disjunction A) _ y n L MA); [reflexivity|].
      rewrite groupNames_disjunction. intros Hin. exact (Hdisj n Hin Hn). }
    destruct (namesOf A) as [|a NA] eqn:EA; [congruence|].
    cbn [app]. cbn [app] in F. now rewrite F.
  - destruct (matchRegex s (disjunction B) _ _) as [y|] eqn:MB; [|reflexivity].
    assert (F : find (fun k => truthy (lookup k (caps y))) (namesOf A ++ namesOf B)
                = find (fun k => truthy (lookup k (caps y))) (namesOf B)).
    { rewrite find_app. rewrite (find_none_all _ (namesOf A)); [reflexivity|].
      intros n Hn.
      rewrite (matchRegex_captures s (disjunction B) _ y n L MB); [reflexivity|].
      rewrite groupNames_disjunction. exact (Hdisj n Hn). }
    destruct (namesOf A) as [|a NA] eqn:EA; [congruence|].
    destruct (namesOf B) as [|b NB] eqn:EB; [congruence|].
    cbn [app]. cbn [app] in F. now rewrite F.
Qed.

(** ** [buildLexerRegExp] *)

Lemma fold_left_push {A B} (g : A -> B) (l : list A) :
  forall acc, fold_left (fun buf e => buf ++ [g e]) l acc = acc ++ map g l.
Proof.
  induction l as [|a l IH]; intros acc; cbn [fold_left map].
  - now rewrite app_nil_r.
  - rewrite IH, <- app_assoc. reflexivity.
Qed.

Lemma buildLexerRegExp_eq (regExps : PatternSet) :
  buildLexerRegExp regExps = newRegExp (join (str "|") (map groupText regExps)).
Proof. unfold buildLexerRegExp. now rewrite fold_left_push. Qed.

Lemma newRegExp_Parsed (pattern : jsstring) (re : RegExp) :
  newRegExp pattern = Parsed re <->
  compileAlts pattern = Parsed (re_alts re) /\
  earlyErrors (disjunction (re_alts re)) = Parsed tt /\
  lastIndex re = 0.
Proof.
  unfold newRegExp. split.
  - intros H. apply pbind_Parsed in H. destruct H as (alts & Hc & H).
    apply pbind_Parsed in H. destruct H as ([] & He & H).
    inversion H; subst re. cbn. auto.
  - intros (Hc & He & Hl). rewrite Hc. cbn [pbind]. rewrite He. cbn [pbind].
    destruct re as [alts li]. cbn in Hl. now subst li.
Qed.

Lemma join_cons2 (s1 s2 : jsstring) (rest : list jsstring) :
  join (str "|") (s1 :: s2 :: rest)
  = s1 ++ "|"%char :: join (str "|") (s2 :: rest).
Proof. reflexivity. Qed.

Lemma join_groupText_head (e : jsstring * Pattern) (rest : PatternSet) :
  exists tail,
    join (str "|") (map groupText (e :: rest))
    = "("%char :: "?"%char :: "<"%char :: tail.
Proof.
  destruct rest as [|e2 rest]; cbn [map].
  - cbn [join]. unfold groupText. cbn. now eexists.
  - rewrite join_cons2. unfold groupText at 1. cbn. now eexists.
Qed.

(** The alternatives of the pattern built from a set are those of its first
    entry followed by those of the other entries. *)
Lemma buildLexerRegExp_cons (e e2 : jsstring * Pattern) (rest : PatternSet)
  (re re1 : RegExp) :
  buildLexerRegExp (e :: e2 :: rest) = Parsed re ->
  buildLexerRegExp [e] = Parsed re1 ->
  exists re2,
    buildLexerRegExp (e2 :: rest) = Parsed re2 /\
    re_alts re = re_alts re1 ++ re_alts re2 /\
    re_alts re1 <> [] /\ re_alts re2 <> [] /\
    namesOf (re_alts re1) <> [] /\ namesOf (re_alts re2) <> [] /\
    NoDup (namesOf (re_alts re1) ++ namesOf (re_alts re2)).
Proof.
  rewrite !buildLexerRegExp_eq. cbn [map]. rewrite join_cons2.
  change (join (str "|") [groupText e]) with (groupText e).
  intros H H1. apply newRegExp_Parsed in H. destruct H as (Hc & He & _).
  apply newRegExp_Parsed in H1. destruct H1 as (Hc1 & He1 & _).
  rewrite (compileAlts_bar _ _ _ Hc1) in Hc.
  apply pbind_Parsed in Hc. destruct Hc as (a2 & Hc2 & Hc).
  inversion Hc as [Halts]. rewrite <- Halts in He.
  pose proof (compileAlts_not_nil _ _ Hc1) as N1.
  pose proof (compileAlts_not_nil _ _ Hc2) as N2.
  destruct (earlyErrors_app _ _ N1 N2 He) as [_ He2].
  exists (mkRegExp a2 0). cbn [re_alts].
  split; [apply newRegExp_Parsed; cbn; auto|].
  split; [reflexivity|]. split; [exact N1|]. split; [exact N2|].
  split; [|split].
  - unfold groupText in Hc1. cbn in Hc1.
    now apply compileAlts_group_names in Hc1.
  - destruct (join_groupText_head e2 rest) as (tail & E).
    cbn [map] in E. rewrite E in Hc2.
    now apply compileAlts_group_names in Hc2.
  - apply earlyErrors_NoDup in He.
    now rewrite groupNames_disjunction, namesOf_app in He.
Qed.

(** ** Priority among the entries of a pattern set *)

Lemma firstListed_cons (i : Z) (s : jsstring) (e : jsstring * Pattern)
  (rest : PatternSet) (re1 : RegExp) :
  buildLexerRegExp [e] = Parsed re1 ->
  firstListed i s (e :: rest)
  = match scan (re_alts re1) i s with
    | Return None => firstListed i s rest
    | r => r
    end.
Proof. intros H. cbn [firstListed]. now rewrite H. Qed.

Lemma scan_firstListed (i : Z) (s : jsstring) (regExps : PatternSet) :
  regExps <> [] ->
  (forall e, In e regExps -> exists re1, buildLexerRegExp [e] = Parsed re1) ->
  forall re,
    buildLexerRegExp regExps = Parsed re ->
    scan (re_alts re) i s = firstListed i s regExps.
Proof.
  induction regExps as [|e rest IH]; [congruence|]. intros _ Hall re Hre.
  destruct (Hall e (or_introl eq_refl)) as (re1 & H1).
  destruct rest as [|e2 rest].
  - rewrite (firstListed_cons i s e [] re Hre). cbn [firstListed].
    destruct (scan (re_alts re) i s) as [[m|]| | |]; reflexivity.
  - destruct (buildLexerRegExp_cons e e2 rest re re1 Hre H1)
      as (re2 & H2 & Halts & N1 & N2 & M1 & M2 & Hnd).
    rewrite Halts, scan_app by assumption.
    rewrite (firstListed_cons i s e (e2 :: rest) re1 H1).
    rewrite <- (IH ltac:(discriminate)
                   (fun e' He' => Hall e' (or_intror He')) re2 H2).
    reflexivity.
Qed.

(** Within the fragment of Part 2, which has no back-reference, an
    alternative does not depend on the groups that stand before it, and the
    ordered choice can be read entry by entry: the scanner answers what the
    first-listed entry that matches there answers when it is compiled on
    its own.  (With a numbered back-reference the entry alone and the entry
    inside the combined pattern can differ; such sets are left out.) *)
Lemma matchNext_first_listed (regExps : PatternSet) (re : RegExp)
  (i : Z) (s : jsstring) :
  regExps <> [] ->
  buildLexerRegExp regExps = Parsed re ->
  (forall e, In e regExps -> exists re1, buildLexerRegExp [e] = Parsed re1) ->
  fst (matchNext i s re) = firstListed i s regExps /\
  lex 1 (str "if")
      [ (str "id", mkPattern (str "[a-zA-Z_][a-zA-Z0-9_]*"));
        (str "kw", mkPattern (str "if")) ]
  = Return [mkToken (Some (str "id")) (str "if") origin] /\
  lex 1 (str "if")
      [ (str "kw", mkPattern (str "if"));
        (str "id", mkPattern (str "[a-zA-Z_][a-zA-Z0-9_]*")) ]
  = Return [mkToken (Some (str "kw")) (str "if") origin].
Proof.
  intros Hne Hre Hall. split; [|split; reflexivity].
  rewrite matchNext_scan. now apply scan_firstListed.
Qed.

Lemma matchNext_first_listed_witness :
  exists re,
    buildLexerRegExp idNumWs = Parsed re /\
    fst (matchNext 4 (str "one 42") re) = firstListed 4 (str "one 42") idNumWs /\
    firstListed 4 (str "one 42") idNumWs
    = Return (Some (mkMatchResult (Some (str "num")) (str "42"))).
Proof.
  eexists. split; [vm_compute; reflexivity|].
  split; [|vm_compute; reflexivity].
  apply (matchNext_first_listed idNumWs).
  - discriminate.
  - vm_compute. reflexivity.
  - intros e [<-|[<-|[<-|[]]]]; eexists; vm_compute; reflexivity.
Defined.

Lemma matchRegex_disjunction_cons (s : jsstring) (a : regex)
  (rest : list regex) (x : mstate) (c : cont) :
  rest <> [] ->
  matchRegex s (disjunction (a :: rest)) x c
  = orElse (matchRegex s a x c) (matchRegex s (disjunction rest) x c).
Proof. destruct rest; [congruence | reflexivity]. Qed.

(** An alternation fails exactly when each of its alternatives fails. *)
Lemma disjunction_fails (s : jsstring) (x : mstate) (alts : list regex) :
  alts <> [] ->
  (matchRegex s (disjunction alts) x (fun y => Some y) = None <->
   Forall (fun a => matchRegex s a x (fun y => Some y) = None) alts).
Proof.
  induction alts as [|a alts IH]; [congruence|]. intros _.
  destruct alts as [|b alts].
  - cbn [disjunction mkAlt]. split; [intros H; now constructor|].
    intros H. now inversion H.
  - rewrite matchRegex_disjunction_cons by discriminate.
    specialize (IH ltac:(discriminate)). split.
    + intros H. destruct (matchRegex s a x _) eqn:E; [discriminate|].
      cbn [orElse] in H. constructor; [exact E | now apply IH].
    + intros H. inversion H as [|? ? Ha Hrest]; subst.
      rewrite Ha. cbn [orElse]. now apply IH.
Qed.

(** An alternation answers what its first matching alternative answers. *)
Lemma disjunction_first (s : jsstring) (x : mstate) (before : list regex)
  (a : regex) (after : list regex) (y : mstate) :
  Forall (fun b => matchRegex s b x (fun y => Some y) = None) before ->
  matchRegex s a x (fun y => Some y) = Some y ->
  matchRegex s (disjunction (before ++ a :: after)) x (fun y => Some y) = Some y.
Proof.
  induction 1 as [|b before Hb Hbefore IH]; intros Ha.
  - cbn [app]. destruct after as [|c after]; [exact Ha|].
    rewrite matchRegex_disjunction_cons by discriminate. now rewrite Ha.
  - cbn [app]. rewrite matchRegex_disjunction_cons
      by (destruct before; discriminate).
    rewrite Hb. cbn [orElse]. now apply IH.
Qed.

Lemma disjunction_selects (s : jsstring) (x : mstate) (alts : list regex)
  (y : mstate) :
  alts <> [] ->
  matchRegex s (disjunction alts) x (fun y => Some y) = Some y ->
  exists before a after,
    alts = before ++ a :: after /\
    Forall (fun b => matchRegex s b x (fun y => Some y) = None) before /\
    matchRegex s a x (fun y => Some y) = Some y.
Proof.
  induction alts as [|a alts IH]; [congruence|]. intros _ H.
  destruct (matchRegex s a x (fun y => Some y)) as [y'|] eqn:E.
  - exists [], a, alts. split; [reflexivity|]. split; [constructor|].
    destruct alts as [|b alts]; [exact H|].
    rewrite matchRegex_disjunction_cons, E in H by discriminate.
    cbn [orElse] in H. congruence.
  - destruct alts as [|b alts]; [cbn [disjunction mkAlt] in H; congruence|].
    rewrite matchRegex_disjunction_cons, E in H by discriminate.
    cbn [orElse] in H.
    destruct (IH ltac:(discriminate) H) as (before & a' & after & -> & Hb & Ha).
    exists (a :: before), a', after. split; [reflexivity|].
    split; [now constructor | exact Ha].
Qed.

(** C4, as amended.  The combined pattern is the entries' groups joined by
    [|] in the order of the pattern set, and at every scan position the
    scanner selects the first of its alternatives that matches there,
    whatever the length of its match, not the longest match: an alternative
    is selected exactly when every alternative before it fails at the
    position and it matches, and the answer is [null] exactly when every
    alternative fails.  In particular on ["if"] the kind listed first in
    the pattern set wins, for both orders of [{id, kw}]. *)
Theorem matchNext_ordered_choice (regExps : PatternSet) (re : RegExp)
  (i : Z) (s : jsstring) :
  regExps <> [] ->
  buildLexerRegExp regExps = Parsed re ->
  0 <= i <= len s ->
  buildLexerRegExp regExps
  = newRegExp (join (str "|") (map groupText regExps)) /\
  (fst (matchNext i s re) = Return None <->
   Forall (fun a => matchRegex s a (mkState (Z.to_nat i) []) (fun y => Some y)
                    = None)
          (re_alts re)) /\
  (forall before a after y,
     re_alts re = before ++ a :: after ->
     Forall (fun b => matchRegex s b (mkState (Z.to_nat i) []) (fun y => Some y)
                      = None) before ->
     matchRegex s a (mkState (Z.to_nat i) []) (fun y => Some y) = Some y ->
     exists m, fst (matchNext i s re) = Return (Some m) /\
               text m = substring s (Z.to_nat i) (endIndex y)) /\
  (forall m,
     fst (matchNext i s re) = Return (Some m) ->
     exists before a after y,
       re_alts re = before ++ a :: after /\
       Forall (fun b => matchRegex s b (mkState (Z.to_nat i) []) (fun y => Some y)
                        = None) before /\
       matchRegex s a (mkState (Z.to_nat i) []) (fun y => Some y) = Some y /\
       text m = substring s (Z.to_nat i) (endIndex y)) /\
  lex 1 (str "if")
      [ (str "id", mkPattern (str "[a-zA-Z_][a-zA-Z0-9_]*"));
        (str "kw", mkPattern (str "if")) ]
  = Return [mkToken (Some (str "id")) (str "if") origin] /\
  lex 1 (str "if")
      [ (str "kw", mkPattern (str "if"));
        (str "id", mkPattern (str "[a-zA-Z_][a-zA-Z0-9_]*")) ]
  = Return [mkToken (Some (str "kw")) (str "if") origin].
Proof.
  intros Hne Hre Hi. split; [apply buildLexerRegExp_eq|].
  rewrite buildLexerRegExp_eq in Hre. apply newRegExp_Parsed in Hre.
  destruct Hre as (Hc & _ & _).
  assert (Halts : re_alts re <> []) by (now apply compileAlts_not_nil in Hc).
  assert (Hnames : groupNames (disjunction (re_alts re)) <> []).
  { destruct regExps as [|e rest]; [congruence|].
    destruct (join_groupText_head e rest) as (tail & E). rewrite E in Hc.
    rewrite groupNames_disjunction. now apply compileAlts_group_names in Hc. }
  assert (L : Nat.ltb (List.length s) (Z.to_nat i) = false).
  { apply Nat.ltb_ge. unfold len in Hi. lia. }
  rewrite matchNext_scan, scan_eq, L.
  split; [|split; [|split; [|split; reflexivity]]].
  - rewrite <- (disjunction_fails s _ (re_alts re) Halts).
    destruct (matchRegex s (disjunction (re_alts re)) _ _) as [y|];
      [|split; reflexivity].
    destruct (groupNames (disjunction (re_alts re))); [congruence|].
    split; discriminate.
  - intros before a after y Hdec Hbefore Ha.
    rewrite Hdec in *. rewrite (disjunction_first s _ before a after y Hbefore Ha).
    destruct (groupNames (disjunction (before ++ a :: after))); [congruence|].
    eexists. split; reflexivity.
  - intros m H.
    destruct (matchRegex s (disjunction (re_alts re)) _ _) as [y|] eqn:M;
      [|discriminate].
    destruct (disjunction_selects s _ (re_alts re) y Halts M)
      as (before & a & after & Hdec & Hbefore & Ha).
    exists before, a, after, y. repeat split; auto.
    destruct (groupNames (disjunction (re_alts re))); [congruence|].
    now inversion H.
Qed.

Lemma matchNext_ordered_choice_witness :
  exists re y,
    buildLexerRegExp idNumWs = Parsed re /\
    nth_error (re_alts re) 1
    = Some (RSeq (RGroup (Some (str "num"))
                    (RSeq (RRepeat 1 None true (RSet (CSBuiltin false Digit)))
                          REmpty)) REmpty) /\
    endIndex y = 6%nat /\
    exists m, fst (matchNext 4 (str "one 42") re) = Return (Some m) /\
              text m = substring (str "one 42") 4 (endIndex y).
Proof.
  destruct (buildLexerRegExp idNumWs) as [re| |] eqn:B;
    try (vm_compute in B; discriminate).
  assert (A : re_alts re = re_alts (mkRegExp (re_alts re) 0)) by reflexivity.
  vm_compute in B. inversion B as [R]. clear B.
  exists (mkRegExp (re_alts re) 0), (mkState 6 [(str "num", str "42")]).
  rewrite <- R. cbn [re_alts].
  split; [reflexivity|]. split; [reflexivity|]. split; [reflexivity|].
  match goal with
  | |- context [matchNext _ _ (mkRegExp (?x :: ?n :: ?rest) 0)] =>
      apply (proj1 (proj2 (proj2 (matchNext_ordered_choice idNumWs
                             (mkRegExp (x :: n :: rest) 0) 4 (str "one 42")
                             ltac:(discriminate) ltac:(vm_compute; reflexivity)
                             ltac:(vm_compute; split; discriminate))))
                   [x] n rest);
        [reflexivity | constructor; [vm_compute; reflexivity | constructor]
        | vm_compute; reflexivity]
  end.
Defined.

(** C4, as stated, fails: with [{a: /a/, ab: /ab/}] on ["ab"] the scanner
    selects ["a"], although the entry [ab] matches the longer ["ab"]. *)
Lemma longest_match_counterexample : ~ selectsLongest.
Proof.
  intros H.
  pose (a := (str "a", mkPattern (str "a"))).
  pose (ab := (str "ab", mkPattern (str "ab"))).
  destruct (buildLexerRegExp [a; ab]) as [re| |] eqn:B;
    try (vm_compute in B; discriminate).
  destruct (buildLexerRegExp [ab]) as [re1| |] eqn:B1;
    try (vm_compute in B1; discriminate).
  specialize (H [a; ab] re 0 (str "ab")
                (mkMatchResult (Some (str "a")) (str "a")) B).
  assert (M : fst (matchNext 0 (str "ab") re)
              = Return (Some (mkMatchResult (Some (str "a")) (str "a")))).
  { vm_compute in B. inversion B. vm_compute. reflexivity. }
  specialize (H M ab re1 (mkMatchResult (Some (str "ab")) (str "ab"))
                (or_intror (or_introl eq_refl)) B1).
  assert (M1 : fst (matchNext 0 (str "ab") re1)
               = Return (Some (mkMatchResult (Some (str "ab")) (str "ab")))).
  { vm_compute in B1. inversion B1. vm_compute. reflexivity. }
  specialize (H M1). cbn in H. lia.
Qed.

(** ** The kind of an empty match *)

(** C3, at the failing input.  With [{a: /x*/}] the matcher matches the
    empty string at index 0 of ["y"]; the group [a] holds [""], which is
    not truthy, so [find] finds no key and the kind is [undefined]. *)
Theorem matchNext_empty_match_kind :
  exists re,
    buildLexerRegExp [(str "a", mkPattern (str "x*"))] = Parsed re /\
    exec (mkRegExp (re_alts re) 0) (str "y")
    = (Some (mkMatch [] (Some [(str "a", Some [])])),
       mkRegExp (re_alts re) 0) /\
    fst (matchNext 0 (str "y") re) = Return (Some (mkMatchResult None [])).
Proof.
  eexists. split; [vm_compute; reflexivity|]. split; vm_compute; reflexivity.
Qed.

(** The two other parts of C3 hold.  The match is anchored: when the
    matcher fails at the position, the answer is [null], whatever matches
    further on. *)
Lemma matchNext_anchored (re : RegExp) (i : Z) (s : jsstring) :
  matchRegex s (re_regex re) (mkState (Z.to_nat i) []) (fun y => Some y) = None ->
  fst (matchNext i s re) = Return None.
Proof.
  intros H. rewrite matchNext_scan, scan_eq. unfold re_regex in H.
  rewrite H. destruct (Nat.ltb _ _); reflexivity.
Qed.

Lemma matchNext_anchored_example :
  exists re,
    buildLexerRegExp idNumWs = Parsed re /\
    fst (matchNext 0 (str "+a") re) = Return None /\
    fst (matchNext 1 (str "+a") re)
    = Return (Some (mkMatchResult (Some (str "id")) (str "a"))).
Proof.
  eexists. split; [vm_compute; reflexivity|]. split; vm_compute; reflexivity.
Qed.

(** The text of a match is the part of the string that starts at the
    position and has the length of the text. *)
Lemma matchNext_text (re : RegExp) (i : Z) (s : jsstring) (m : Match) :
  0 <= i ->
  fst (matchNext i s re) = Return (Some m) ->
  text m = firstn (List.length (text m)) (skipn (Z.to_nat i) s) /\
  i + len (text m) <= len s.
Proof.
  intros Hi H. rewrite matchNext_scan in H.
  pose proof (scan_advance _ _ _ _ Hi H) as [Hle _].
  apply scan_text in H. destruct H as (e & He & Ht). split; [|exact Hle].
  rewrite Ht at 2. rewrite substring_length by exact He. exact Ht.
Qed.

(** ** Pattern sets that do not compile *)

(** X14. A kind name that starts with an ASCII character other than a
    letter, [$] or [_] (and other than the [=], [!] and [\] that lead out of
    the model) cannot name a group: as the kind of the first entry it makes
    the constructor throw, whatever its pattern and the other entries. *)
Lemma kind_name_start_rejected (c : ascii) (k : jsstring) (p : Pattern)
  (rest : PatternSet) :
  isAscii c = true -> isIdStart c = false ->
  c <> "="%char -> c <> "!"%char -> c <> "\"%char ->
  buildLexerRegExp ((c :: k, p) :: rest) = Rejected.
Proof.
  intros Ha Hs He Hb Hx. rewrite buildLexerRegExp_eq.
  assert (E' : exists tail', join (str "|") (map groupText ((c :: k, p) :: rest))
                             = "("%char :: "?"%char :: "<"%char :: c :: tail').
  { destruct rest as [|e2 rest]; cbn [map].
    - cbn [join]. unfold groupText. cbn. now eexists.
    - rewrite join_cons2. unfold groupText at 1. cbn. now eexists. }
  destruct E' as (tail' & ->).
  unfold newRegExp, compileAlts, tokenize.
  change (tscan (MNormal, []) ("("%char :: "?"%char :: "<"%char :: c :: tail'))
    with (pbind (tstep (MParenQLt, []) c) (fun st => tscan st tail')).
  cbn [tstep]. apply Ascii.eqb_neq in He, Hb, Hx.
  rewrite He, Hb, Hs, Ha, Hx. reflexivity.
Qed.

(** C7, as amended.  When the combined pattern does not compile, [lex]
    throws the constructor's error whatever the source and before any
    iteration (also with no fuel at all), so no token is produced.  The
    combined pattern does not compile for a kind that is not a name
    ([1a]), for a group named like its kind ([a: /(?<a>x)/]) and for
    sources that leave the group open or start with a quantifier. *)
Theorem buildLexerRegExp_failure (regExps : PatternSet) :
  buildLexerRegExp regExps = Rejected ->
  (forall fuel src,
     lex fuel src regExps = Throw RegExpSyntaxError /\
     forall tokens, lex fuel src regExps <> Return tokens) /\
  buildLexerRegExp [(str "1a", mkPattern (str "x"))] = Rejected /\
  buildLexerRegExp [(str "a", mkPattern (str "(?<a>x)"))] = Rejected /\
  buildLexerRegExp [(str "a", mkPattern (str "("))] = Rejected /\
  buildLexerRegExp [(str "a", mkPattern (str "*"))] = Rejected.
Proof.
  intros H. split; [|repeat split].
  intros fuel src. unfold lex. rewrite H. split; [reflexivity | discriminate].
Qed.

Lemma buildLexerRegExp_failure_witness :
  lex 0 [] [(str "1a", mkPattern (str "x"))] = Throw RegExpSyntaxError /\
  lex 5 (str "x") [(str "1a", mkPattern (str "x"))] = Throw RegExpSyntaxError.
Proof.
  destruct (buildLexerRegExp_failure [(str "1a", mkPattern (str "x"))])
    as [H _]; [vm_compute; reflexivity|].
  split; [apply (H 0%nat []) | apply (H 5%nat (str "x"))].
Defined.

(** C7, as stated, fails: the source [x)|(y] is not a pattern, yet between
    the parentheses that [buildLexerRegExp] adds it is one, and [lex]
    produces tokens. *)
Lemma pattern_fragment_counterexample :
  ~ (forall (regExps : PatternSet) e,
       In e regExps ->
       newRegExp (source (snd e)) = Rejected ->
       buildLexerRegExp regExps = Rejected).
Proof.
  intros H.
  specialize (H [(str "a", mkPattern (str "x)|(y"))] _ (or_introl eq_refl)).
  cbn [snd source] in H.
  assert (R : newRegExp (str "x)|(y") = Rejected) by (vm_compute; reflexivity).
  specialize (H R). vm_compute in H. discriminate.
Qed.

Lemma pattern_fragment_tokens :
  lex 1 (str "x") [(str "a", mkPattern (str "x)|(y"))]
  = Return [mkToken (Some (str "a")) (str "x") origin].
Proof. vm_compute. reflexivity. Qed.

(** ** The fuel of [RepeatMatcher] is enough *)

Section RepeatFuel.

Variable input : jsstring.

(** A matcher only asks its continuation about states between its start
    and the end of the input. *)
Section Repeat.

Variable m : matcher.
Hypothesis m_local :
  forall x c c',
    (endIndex x <= List.length input)%nat ->
    (forall y, (endIndex x <= endIndex y <= List.length input)%nat -> c y = c' y) ->
    m x c = m x c'.

Lemma repeatMatcher_local (names : list jsstring) (greedy : bool) :
  forall fuel min max x c c',
    (endIndex x <= List.length input)%nat ->
    (forall y, (endIndex x <= endIndex y <= List.length input)%nat -> c y = c' y) ->
    repeatMatcher fuel m min max greedy names x c
    = repeatMatcher fuel m min max greedy names x c'.
Proof.
  induction fuel as [|fuel IH]; intros min max x c c' Hx Hc; [reflexivity|].
  cbn [repeatMatcher].
  assert (Hcx : c x = c' x) by (apply Hc; lia).
  assert (Hm : forall mn mx,
    m (mkState (endIndex x) (resetCaptures names (caps x)))
      (fun y => if (Nat.eqb min 0 && Nat.eqb (endIndex y) (endIndex x))%bool
                then None
                else repeatMatcher fuel m mn mx greedy names y c)
    = m (mkState (endIndex x) (resetCaptures names (caps x)))
        (fun y => if (Nat.eqb min 0 && Nat.eqb (endIndex y) (endIndex x))%bool
                  then None
                  else repeatMatcher fuel m mn mx greedy names y c')).
  { intros mn mx. apply m_local; [exact Hx|]. cbn [endIndex]. intros y Hy.
    destruct (Nat.eqb min 0 && Nat.eqb (endIndex y) (endIndex x))%bool;
      [reflexivity|].
    apply IH; [lia|]. intros z Hz. apply Hc. lia. }
  rewrite Hcx, Hm. reflexivity.
Qed.

Lemma repeatMatcher_S (names : list jsstring) (greedy : bool) (fuel min : nat)
  (max : option nat) (x : mstate) (c : cont) :
  repeatMatcher (S fuel) m min max greedy names x c
  = match max with
    | Some O => c x
    | _ =>
        let d : cont := fun y =>
          if (Nat.eqb min 0 && Nat.eqb (endIndex y) (endIndex x))%bool
          then None
          else repeatMatcher fuel m (Nat.pred min) (option_map Nat.pred max)
                             greedy names y c in
        let xr := mkState (endIndex x) (resetCaptures names (caps x)) in
        if negb (Nat.eqb min 0) then m xr d
        else if negb greedy then orElse (c x) (m xr d)
        else orElse (m xr d) (c x)
    end.
Proof. reflexivity. Qed.

Lemma repeatMatcher_fuel_step (names : list jsstring) (greedy : bool) :
  forall fuel min max x c,
    (endIndex x <= List.length input)%nat ->
    (S (min + (List.length input - endIndex x)) <= fuel)%nat ->
    repeatMatcher (S fuel) m min max greedy names x c
    = repeatMatcher fuel m min max greedy names x c.
Proof.
  induction fuel as [|fuel IH]; intros min max x c Hx Hfuel; [lia|].
  rewrite (repeatMatcher_S names greedy (S fuel)),
          (repeatMatcher_S names greedy fuel).
  cbv zeta.
  assert (Hm :
    m (mkState (endIndex x) (resetCaptures names (caps x)))
      (fun y => if (Nat.eqb min 0 && Nat.eqb (endIndex y) (endIndex x))%bool
                then None
                else repeatMatcher (S fuel) m (Nat.pred min)
                       (option_map Nat.pred max) greedy names y c)
    = m (mkState (endIndex x) (resetCaptures names (caps x)))
        (fun y => if (Nat.eqb min 0 && Nat.eqb (endIndex y) (endIndex x))%bool
                  then None
                  else repeatMatcher fuel m (Nat.pred min)
                         (option_map Nat.pred max) greedy names y c)).
  { apply m_local; [exact Hx|]. cbn [endIndex]. intros y Hy.
    destruct (Nat.eqb min 0) eqn:E0; cbn [andb].
    - destruct (Nat.eqb (endIndex y) (endIndex x)) eqn:E1; [reflexivity|].
      apply Nat.eqb_eq in E0. apply Nat.eqb_neq in E1.
      apply IH; lia.
    - apply Nat.eqb_neq in E0. apply IH; lia. }
  rewrite Hm. reflexivity.
Qed.

(** With the fuel [matchRegex] gives it, [repeatMatcher] has reached its
    answer: any additional fuel gives the same one. *)
Lemma repeatMatcher_fuel_enough (names : list jsstring) (greedy : bool)
  (min : nat) (max : option nat) (x : mstate) (c : cont) (k : nat) :
  (endIndex x <= List.length input)%nat ->
  repeatMatcher (S (min + (List.length input - endIndex x)) + k)
                m min max greedy names x c
  = repeatMatcher (S (min + (List.length input - endIndex x)))
                  m min max greedy names x c.
Proof.
  intros Hx. induction k as [|k IH]; [now rewrite Nat.add_0_r|].
  rewrite Nat.add_succ_r, repeatMatcher_fuel_step by lia. exact IH.
Qed.

End Repeat.

Lemma matchRegex_local (r : regex) :
  forall x c c',
    (endIndex x <= List.length input)%nat ->
    (forall y, (endIndex x <= endIndex y <= List.length input)%nat -> c y = c' y) ->
    matchRegex input r x c = matchRegex input r x c'.
Proof.
  induction r as [ | cs | a | r1 IH1 r2 IH2 | r1 IH1 r2 IH2
                 | min max greedy r1 IH1 | name r1 IH1 ];
    intros x c c' Hx Hc; cbn [matchRegex].
  - apply Hc. lia.
  - destruct (nth_error input (endIndex x)) as [ch|] eqn:E; [|reflexivity].
    assert (endIndex x < List.length input)%nat
      by (apply nth_error_Some; congruence).
    destruct (charset_mem cs ch); [|reflexivity]. apply Hc. cbn. lia.
  - destruct a.
    + destruct (Nat.eqb (endIndex x) 0); [apply Hc; lia | reflexivity].
    + destruct (Nat.eqb (endIndex x) (List.length input));
        [apply Hc; lia | reflexivity].
  - apply IH1; [exact Hx|]. intros y Hy. apply IH2; [lia|].
    intros z Hz. apply Hc. lia.
  - now rewrite (IH1 x c c'), (IH2 x c c').
  - now apply repeatMatcher_local.
  - apply IH1; [exact Hx|]. intros y Hy.
    destruct name; apply Hc; cbn; lia.
Qed.

(** The iteration bound of [RRepeat] never decides a match. *)
Lemma matchRegex_repeat_fuel (min : nat) (max : option nat) (greedy : bool)
  (r : regex) (x : mstate) (c : cont) (k : nat) :
  (endIndex x <= List.length input)%nat ->
  repeatMatcher (S (min + (List.length input - endIndex x)) + k)
                (matchRegex input r) min max greedy (groupNames r) x c
  = matchRegex input (RRepeat min max greedy r) x c.
Proof.
  intros Hx. cbn [matchRegex].
  apply repeatMatcher_fuel_enough; [|exact Hx].
  intros y d d'. apply matchRegex_local.
Qed.

End RepeatFuel.

(** ** The group that wraps an entry *)

Lemma isIdStart_not (c x : ascii) :
  isIdStart c = true -> isIdStart x = false -> Ascii.eqb c x = false.
Proof.
  intros Hc Hx. destruct (Ascii.eqb c x) eqn:E; [|reflexivity].
  apply Ascii.eqb_eq in E. congruence.
Qed.

Lemma isIdPart_not (c x : ascii) :
  isIdPart c = true -> isIdPart x = false -> Ascii.eqb c x = false.
Proof.
  intros Hc Hx. destruct (Ascii.eqb c x) eqn:E; [|reflexivity].
  apply Ascii.eqb_eq in E. congruence.
Qed.

Lemma tscan_name (k rest : jsstring) :
  forallb isIdPart k = true ->
  forall acc toks,
    tscan (MName acc, toks) (k ++ rest) = tscan (MName (rev k ++ acc), toks) rest.
Proof.
  induction k as [|c k IH]; intros Hk acc toks; [reflexivity|].
  cbn [forallb] in Hk. apply andb_true_iff in Hk. destruct Hk as [Hc Hk].
  cbn [app tscan tstep].
  rewrite (isIdPart_not c ">"%char Hc eq_refl), Hc. cbn [pbind].
  rewrite (IH Hk). cbn [rev]. now rewrite <- app_assoc.
Qed.

(** The tokens of [(?<k>src)] for an identifier [k]: the opening of the
    group [k], the tokens of [src], the closing. *)
Lemma tokenize_group (k src : jsstring) (ts : list token) :
  isIdentifier k = true ->
  tokenize src = Parsed ts ->
  tokenize (str "(?<" ++ k ++ str ">" ++ src ++ str ")")
  = Parsed (TOpen (Some k) :: ts ++ [TClose]).
Proof.
  intros Hk Hts. destruct k as [|c k]; [discriminate|].
  cbn [isIdentifier] in Hk. apply andb_true_iff in Hk. destruct Hk as [Hc Hk].
  unfold tokenize in *. apply pbind_Parsed in Hts.
  destruct Hts as ([mode rts] & Hscan & Hfin).
  change (str "(?<" ++ (c :: k) ++ str ">" ++ src ++ str ")")
    with ("("%char :: "?"%char :: "<"%char :: c :: (k ++ ">"%char :: src ++ [")"%char])).
  change (tscan (MNormal, []) ("("%char :: "?"%char :: "<"%char :: c
                               :: (k ++ ">"%char :: src ++ [")"%char])))
    with (pbind (tstep (MParenQLt, []) c)
                (fun st => tscan st (k ++ ">"%char :: src ++ [")"%char]))).
  cbn [tstep].
  rewrite (isIdStart_not c "="%char Hc eq_refl),
          (isIdStart_not c "!"%char Hc eq_refl), Hc.
  cbn [orb pbind]. rewrite (tscan_name k _ Hk).
  cbn [tscan tstep]. rewrite Ascii.eqb_refl. cbn [pbind].
  replace (rev (rev k ++ [c])) with (c :: k)
    by (now rewrite rev_app_distr, rev_involutive).
  change (MNormal, [TOpen (Some (c :: k))])
    with (addBase [TOpen (Some (c :: k))] (MNormal, [])).
  rewrite tscan_app, tscan_base, Hscan. cbn [pbind tscan].
  destruct mode; cbn [tfinish] in Hfin; try discriminate;
    inversion Hfin; subst ts; unfold addBase; cbn [fst snd tstep pbind].
  - cbn. now rewrite rev_app_distr.
  - cbn. rewrite rev_app_distr. cbn. now rewrite <- !app_assoc.
Qed.

Lemma pstep_below (st st' below : list frame) (t : token) :
  pstep st t = Parsed st' -> pstep (st ++ below) t = Parsed (st' ++ below).
Proof.
  destruct st as [|f [|p rest]]; [discriminate| |]; destruct t; cbn [pstep app];
    intros H; try discriminate; try (now inversion H).
  - apply pbind_Parsed in H. destruct H as (f' & Hq & H). rewrite Hq.
    now inversion H.
  - apply pbind_Parsed in H. destruct H as (f' & Hq & H). rewrite Hq.
    now inversion H.
Qed.

Lemma prun_lift (name : option jsstring) (below : list frame)
  (toks : list token) :
  forall st st',
    prun st toks = Parsed st' ->
    prun (rebase name [] st ++ below) toks
    = Parsed (rebase name [] st' ++ below).
Proof.
  induction toks as [|t toks IH]; intros st st' H.
  - now inversion H.
  - cbn [prun] in *. apply pbind_Parsed in H. destruct H as (st1 & Hs & H).
    assert (Hs' : pstep (rebase name [] st) t = Parsed (rebase name [] st1))
      by (now rewrite pstep_rebase, Hs).
    rewrite (pstep_below _ _ below _ Hs'). cbn [pbind]. now apply IH.
Qed.

Lemma parseAlternatives_group (name : option jsstring) (ts : list token)
  (a : list regex) :
  parseAlternatives ts = Parsed a ->
  parseAlternatives (TOpen name :: ts ++ [TClose])
  = Parsed [RSeq (RGroup name (disjunction a)) REmpty].
Proof.
  unfold parseAlternatives. intros H. apply pbind_Parsed in H.
  destruct H as (st & Hrun & Hfin).
  destruct st as [|f [|? ?]]; try discriminate. inversion Hfin; subst a.
  cbn [prun pstep pbind]. rewrite prun_app.
  change (mkFrame name [] [] QNone :: [topFrame])
    with (rebase name [] [topFrame] ++ [topFrame]).
  rewrite (prun_lift name [topFrame] ts _ _ Hrun).
  cbn [pbind rebase app prun pstep f_name].
  unfold frameRegex, frameAlts, pushTerm, topFrame.
  cbn [f_alts f_seq f_name rev app mkSeq]. now rewrite app_nil_r.
Qed.

(** The pattern of one well-formed entry is one alternative: the group of
    its kind around the pattern of its source. *)
Lemma compileAlts_groupText (k : jsstring) (p : Pattern) (a : list regex) :
  isIdentifier k = true ->
  compileAlts (source p) = Parsed a ->
  compileAlts (groupText (k, p))
  = Parsed [RSeq (RGroup (Some k) (disjunction a)) REmpty].
Proof.
  unfold compileAlts. intros Hk H. apply pbind_Parsed in H.
  destruct H as (ts & Hts & Hp).
  unfold groupText. cbn [fst snd].
  rewrite (tokenize_group k (source p) ts Hk Hts). cbn [pbind].
  now apply parseAlternatives_group.
Qed.

(** ** The kind of a non-empty match *)

Lemma scan_group_kind (k : jsstring) (r : regex) (i : Z) (s : jsstring)
  (m : Match) :
  scan [RSeq (RGroup (Some k) r) REmpty] i s = Return (Some m) ->
  text m <> [] ->
  kind m = Some k.
Proof.
  rewrite scan_eq. cbn [disjunction mkAlt groupNames matchRegex].
  destruct (Nat.ltb (List.length s) (Z.to_nat i)) eqn:L; [discriminate|].
  apply Nat.ltb_ge in L.
  destruct (matchRegex s r _ _) as [z|] eqn:M; [|discriminate].
  apply matchRegex_regular in M; [|exact L].
  destruct M as (y & _ & Hy). inversion Hy; subst z. clear Hy.
  intros H Hne. inversion H; subst m. cbn [kind text endIndex caps] in *.
  cbn [find lookup].
  destruct (list_eq_dec ascii_dec k k) as [_|N]; [|congruence].
  destruct (substring s (Z.to_nat i) (endIndex y)); [congruence | reflexivity].
Qed.

(** For a pattern set whose kinds are identifiers and whose sources are
    patterns on their own, a non-empty match has the kind of an entry of
    the set: outside empty matches, the third part of C3 holds. *)
Lemma matchNext_kind_is_key (regExps : PatternSet) (re : RegExp) (i : Z)
  (s : jsstring) (m : Match) :
  buildLexerRegExp regExps = Parsed re ->
  (forall e, In e regExps ->
     isIdentifier (fst e) = true /\
     (exists a, compileAlts (source (snd e)) = Parsed a) /\
     (exists re1, buildLexerRegExp [e] = Parsed re1)) ->
  fst (matchNext i s re) = Return (Some m) ->
  text m <> [] ->
  exists e, In e regExps /\ kind m = Some (fst e).
Proof.
  intros Hre Hall Hm Hne. rewrite matchNext_scan in Hm.
  destruct regExps as [|e0 rest0] eqn:ER.
  { change (buildLexerRegExp []) with (Parsed (mkRegExp [REmpty] 0)) in Hre.
    inversion Hre; subst re. rewrite scan_eq in Hm.
    cbn [re_alts disjunction mkAlt matchRegex groupNames] in Hm.
    destruct (Nat.ltb (List.length s) (Z.to_nat i)); discriminate. }
  rewrite <- ER in *.
  rewrite (scan_firstListed i s regExps) in Hm;
    [|rewrite ER; discriminate | intros e He; apply (Hall e He) | exact Hre].
  clear Hre ER. induction regExps as [|e rest IH]; [discriminate|].
  destruct (Hall e (or_introl eq_refl)) as (Hk & [a Ha] & [re1 H1]).
  rewrite (firstListed_cons i s e rest re1 H1) in Hm.
  destruct (scan (re_alts re1) i s) as [[m1|]| | |] eqn:S1; try discriminate.
  - inversion Hm; subst m1. exists e. split; [now left|].
    rewrite buildLexerRegExp_eq in H1. cbn [map join] in H1.
    apply newRegExp_Parsed in H1. destruct H1 as (Hc & _ & _).
    destruct e as [k p]. cbn [fst snd] in *.
    rewrite (compileAlts_groupText k p a Hk Ha) in Hc.
    inversion Hc as [Halts]. rewrite <- Halts in S1.
    now apply (scan_group_kind k (disjunction a) i s m).
  - destruct IH as (e' & He' & Hkind); [|exact Hm|].
    + intros e' He'. apply Hall. now right.
    + exists e'. split; [now right | exact Hkind].
Qed.

Lemma matchNext_kind_is_key_example :
  exists re m,
    buildLexerRegExp idNumWs = Parsed re /\
    fst (matchNext 3 (str "one 42") re) = Return (Some m) /\
    kind m = Some (str "ws") /\ text m = str " ".
Proof.
  eexists _, _. split; [vm_compute; reflexivity|].
  split; [vm_compute; reflexivity|]. split; reflexivity.
Qed.

(* ================================================================== *)
(** * Part 7. Further properties of the five functions *)
(* ================================================================== *)

(** ** [nextLocation] composes *)

Lemma lastIndexOf_from_app (c : ascii) (a b : jsstring) :
  forall i acc,
    lastIndexOf_from c (a ++ b) i acc
    = lastIndexOf_from c b (i + len a) (lastIndexOf_from c a i acc).
Proof.
  induction a as [|x a IH]; intros i acc.
  - cbn. f_equal. unfold len. simpl. lia.
  - cbn [app lastIndexOf_from]. rewrite IH. f_equal.
    unfold len. cbn [List.length]. lia.
Qed.

Lemma lastIndexOf_from_shift (c : ascii) (b : jsstring) :
  forall j acc,
    lastIndexOf_from c b j acc
    = if lastIndexOf b c >=? 0 then j + lastIndexOf b c else acc.
Proof.
  unfold lastIndexOf. induction b as [|x b IH]; intros j acc; [reflexivity|].
  cbn [lastIndexOf_from]. rewrite (IH (j + 1)), (IH (0 + 1)).
  destruct (lastIndexOf_from c b 0 (-1) >=? 0) eqn:L.
  - destruct (0 + 1 + lastIndexOf_from c b 0 (-1) >=? 0) eqn:L'; lia.
  - destruct (Ascii.eqb x c); cbn; [lia | reflexivity].
Qed.

Lemma lastIndexOf_app (a b : jsstring) (c : ascii) :
  lastIndexOf (a ++ b) c
  = if lastIndexOf b c >=? 0 then len a + lastIndexOf b c else lastIndexOf a c.
Proof.
  unfold lastIndexOf at 1. rewrite lastIndexOf_from_app, lastIndexOf_from_shift.
  reflexivity.
Qed.

Lemma nextLocation_nil (loc : Location) : nextLocation loc [] = loc.
Proof.
  destruct loc as [i l c]. unfold nextLocation. cbn.
  now rewrite !Z.add_0_r.
Qed.

Lemma nextLocation_app (loc : Location) (a b : jsstring) :
  nextLocation (nextLocation loc a) b = nextLocation loc (a ++ b).
Proof.
  unfold nextLocation at 1 3. cbn [index line column].
  rewrite !matchNewlines_count, count_occ_app, lastIndexOf_app, len_app.
  rewrite nextLocation_index, nextLocation_line.
  f_equal; [lia | lia |].
  destruct (lastIndexOf b NL >=? 0) eqn:Lb.
  - destruct (len a + lastIndexOf b NL >=? 0) eqn:L'; [lia|].
    pose proof (len_nonneg a). lia.
  - unfold nextLocation. cbn [column].
    destruct (lastIndexOf a NL >=? 0); lia.
Qed.

(** X3. Consuming a text piece by piece or at once gives the same
    location: [nextLocation] of an empty text changes nothing,
    [nextLocation] of [a] and then of [b] is [nextLocation] of [a ++ b], and
    so folding it over a list of texts is [nextLocation] of their
    concatenation. *)
Theorem nextLocation_compose (loc : Location) (a b : jsstring)
  (texts : list jsstring) :
  nextLocation loc [] = loc /\
  nextLocation (nextLocation loc a) b = nextLocation loc (a ++ b) /\
  fold_left nextLocation texts loc = nextLocation loc (List.concat texts).
Proof.
  split; [apply nextLocation_nil|]. split; [apply nextLocation_app|].
  revert loc. induction texts as [|t texts IH]; intros loc.
  - cbn. now rewrite nextLocation_nil.
  - cbn [fold_left List.concat]. now rewrite IH, nextLocation_app.
Qed.

(** ** Tokens locate themselves in the source *)

Lemma steps_tokens (src : jsstring) (alts : list regex)
  (loc : Location) (toks : list Token) (loc' : Location) :
  steps src alts loc toks loc' ->
  0 <= index loc ->
  loc = nextLocation origin (firstn (Z.to_nat (index loc)) src) ->
  Forall (fun t =>
            0 <= index (tok_loc t) /\
            index (tok_loc t) + len (tok_text t) <= len src /\
            tok_text t
            = substring src (Z.to_nat (index (tok_loc t)))
                        (Z.to_nat (index (tok_loc t) + len (tok_text t))) /\
            tok_loc t
            = nextLocation origin (firstn (Z.to_nat (index (tok_loc t))) src))
         toks.
Proof.
  induction 1 as [loc | loc m toks loc' Hlt Hscan Hsteps IH]; intros Hi Hloc;
    [constructor|].
  destruct (scan_advance _ _ _ _ Hi Hscan) as [Hle Hcov].
  pose proof (len_nonneg (text m)) as Hnn.
  constructor.
  - cbn [tok_loc tok_text]. repeat split; auto.
    destruct (scan_text _ _ _ _ Hscan) as (e & He & Ht).
    assert (L : len (text m) = Z.of_nat (e - Z.to_nat (index loc))).
    { unfold len. now rewrite Ht, substring_length by exact He. }
    rewrite L.
    replace (Z.to_nat (index loc + Z.of_nat (e - Z.to_nat (index loc))))
      with e by lia.
    exact Ht.
  - apply IH.
    + rewrite nextLocation_index. lia.
    + rewrite nextLocation_index, <- Hcov, <- nextLocation_app, <- Hloc.
      reflexivity.
Qed.

(** X1. In the sequence [lex] returns, every token lies in the source
    where its location says: [src.substring(loc.index, loc.index +
    text.length)] is its text. *)
Theorem lex_token_substring (fuel : nat) (src : jsstring)
  (regExps : PatternSet) (tokens : list Token) (t : Token) :
  lex fuel src regExps = Return tokens ->
  In t tokens ->
  0 <= index (tok_loc t) /\
  index (tok_loc t) + len (tok_text t) <= len src /\
  substring src (Z.to_nat (index (tok_loc t)))
            (Z.to_nat (index (tok_loc t) + len (tok_text t)))
  = tok_text t.
Proof.
  unfold lex. destruct (buildLexerRegExp regExps) as [re| |]; try discriminate.
  intros H Hin. apply lexLoop_Return in H.
  destruct H as (toks & loc' & -> & Hs & _ & _). cbn [app] in Hin.
  apply steps_tokens in Hs; [|cbn; lia | reflexivity].
  rewrite Forall_forall in Hs. destruct (Hs t Hin) as (H0 & H1 & H2 & _).
  repeat split; auto.
Qed.

Lemma lex_token_substring_witness :
  substring (str "one 42") 4 6 = str "42".
Proof.
  destruct (lex_token_substring 3 (str "one 42") idNumWs
              [mkToken (Some (str "id")) (str "one") (mkLoc 0 1 1);
               mkToken (Some (str "ws")) (str " ") (mkLoc 3 1 4);
               mkToken (Some (str "num")) (str "42") (mkLoc 4 1 5)]
              (mkToken (Some (str "num")) (str "42") (mkLoc 4 1 5)))
    as (_ & _ & H);
    [vm_compute; reflexivity | right; right; left; reflexivity | exact H].
Defined.

(** X2. In the sequence [lex] returns, the location of a token is the
    location of the text before it: its line is 1 plus the number of
    newlines before its index, and its column is the distance of its index
    from the last newline before it ([index + 1] on the first line). *)
Theorem lex_token_location (fuel : nat) (src : jsstring)
  (regExps : PatternSet) (tokens : list Token) (t : Token) :
  lex fuel src regExps = Return tokens ->
  In t tokens ->
  let before := firstn (Z.to_nat (index (tok_loc t))) src in
  tok_loc t = nextLocation origin before /\
  len before = index (tok_loc t) /\
  line (tok_loc t) = 1 + Z.of_nat (count_occ ascii_dec before NL) /\
  column (tok_loc t) = index (tok_loc t) - lastIndexOf before NL.
Proof.
  unfold lex. destruct (buildLexerRegExp regExps) as [re| |]; try discriminate.
  intros H Hin. apply lexLoop_Return in H.
  destruct H as (toks & loc' & -> & Hs & _ & _). cbn [app] in Hin.
  apply steps_tokens in Hs; [|cbn; lia | reflexivity].
  rewrite Forall_forall in Hs. destruct (Hs t Hin) as (H0 & H1 & _ & H3).
  cbv zeta.
  assert (L : len (firstn (Z.to_nat (index (tok_loc t))) src) = index (tok_loc t)).
  { unfold len in *. rewrite length_firstn.
    pose proof (Zle_0_nat (List.length (tok_text t))). lia. }
  split; [exact H3|]. split; [exact L|].
  rewrite H3 at 1 3. rewrite nextLocation_line. split; [reflexivity|].
  unfold nextLocation. cbn [column origin]. rewrite L.
  destruct (lastIndexOf _ NL >=? 0) eqn:E; [reflexivity|].
  assert (N : ~ In NL (firstn (Z.to_nat (index (tok_loc t))) src)).
  { intros Hn. destruct (lastIndexOf_present _ _ Hn) as (pre & post & _ & _ & Hl).
    pose proof (len_nonneg pre). lia. }
  rewrite (lastIndexOf_absent _ _ N). lia.
Qed.

Lemma lex_token_location_witness :
  let src := str "ab" ++ [NL] ++ str "cd e" in
  let t := mkToken (Some (str "w")) (str "e") (mkLoc 6 2 4) in
  line (tok_loc t) = 1 + Z.of_nat (count_occ ascii_dec (firstn 6 src) NL) /\
  column (tok_loc t) = 6 - lastIndexOf (firstn 6 src) NL.
Proof.
  intros src t.
  destruct (lex_token_location 5 src
              [(str "w", mkPattern (str "[a-z]+"));
               (str "s", mkPattern (str "\s+"))]
              [mkToken (Some (str "w")) (str "ab") (mkLoc 0 1 1);
               mkToken (Some (str "s")) [NL] (mkLoc 2 1 3);
               mkToken (Some (str "w")) (str "cd") (mkLoc 3 2 1);
               mkToken (Some (str "s")) (str " ") (mkLoc 5 2 3);
               t]
              t)
    as (_ & _ & Hl & Hc);
    [vm_compute; reflexivity | do 4 right; left; reflexivity |].
  split; [exact Hl | exact Hc].
Defined.

(** ** The diagnostic of a syntax error *)

Lemma syntaxError_caret_witness :
  exists before cur,
    firstn 4 (str "one + 42") = before ++ cur /\ len cur = 4.
Proof.
  destruct (syntaxError_caret 3 (str "one + 42") idNumWs
              (mkSyntaxError
                 (str "1:5: Unknown token" ++ [NL] ++ str "one + 42" ++ [NL]
                  ++ str "    ^")
                 (mkLoc 4 1 5) (str "one + 42")))
    as (before & cur & H1 & _ & H3 & _); [vm_compute; reflexivity|].
  exists before, cur. split; [exact H1 | exact H3].
Defined.

Lemma oneLine_In (s : jsstring) : oneLine s = true <-> ~ In NL s.
Proof.
  unfold oneLine. rewrite forallb_forall. split.
  - intros H Hin. specialize (H NL Hin). now rewrite Ascii.eqb_refl in H.
  - intros H c Hc. apply negb_true_iff, Ascii.eqb_neq. intros ->. now apply H.
Qed.

Lemma oneLine_app (a b : jsstring) :
  oneLine (a ++ b) = (oneLine a && oneLine b)%bool.
Proof. apply forallb_app. Qed.

Lemma oneLine_uint (u : Decimal.uint) :
  oneLine (str (NilEmpty.string_of_uint u)) = true.
Proof. induction u; cbn; auto. Qed.

Lemma oneLine_numToString (z : Z) : oneLine (numToString z) = true.
Proof.
  unfold numToString, NilZero.string_of_int, NilZero.string_of_uint.
  destruct (Z.to_int z) as [u|u]; destruct u; cbn;
    try reflexivity; apply oneLine_uint.
Qed.

Lemma split_oneLine (s : jsstring) : oneLine s = true -> split NL s = [s].
Proof.
  induction s as [|x s IH]; [reflexivity|]. cbn [oneLine forallb].
  intros H. apply andb_true_iff in H. destruct H as [Hx Hs].
  apply negb_true_iff in Hx. cbn [split]. rewrite Hx.
  unfold oneLine in IH. now rewrite (IH Hs).
Qed.

Lemma split_app_NL (a b : jsstring) :
  oneLine a = true -> split NL (a ++ NL :: b) = a :: split NL b.
Proof.
  induction a as [|x a IH]; intros H.
  - cbn. reflexivity.
  - cbn [oneLine forallb] in H. apply andb_true_iff in H. destruct H as [Hx Ha].
    apply negb_true_iff in Hx. cbn [app split]. rewrite Hx.
    unfold oneLine in IH. now rewrite (IH Ha).
Qed.

Lemma split_lines_oneLine (s l : jsstring) :
  In l (split NL s) -> oneLine l = true.
Proof.
  revert l. induction s as [|x s IH]; intros l H.
  - cbn in H. destruct H as [<-|[]]. reflexivity.
  - cbn [split] in H. destruct (Ascii.eqb x NL) eqn:E.
    + destruct H as [<-|H]; [reflexivity | now apply IH].
    + destruct (split NL s) as [|l0 ls] eqn:S; [now apply split_not_nil in S|].
      destruct H as [<-|H].
      * cbn [oneLine forallb]. rewrite E. cbn [negb andb].
        apply (IH l0). now left.
      * apply IH. now right.
Qed.

Lemma oneLine_repeat_space (n : nat) : oneLine (repeat " "%char n) = true.
Proof. induction n; cbn; auto. Qed.

(** X5. The message of a [SyntaxError] raised by [lex] has exactly three
    lines: the header [{line}:{column}: Unknown token], the line of the
    source with that number, and the marker, [column - 1] spaces and a
    caret. *)
Theorem syntaxError_three_lines (fuel : nat) (src : jsstring)
  (regExps : PatternSet) (e : SyntaxError) :
  lex fuel src regExps = Throw (LexSyntaxError e) ->
  exists lineText,
    nth_error (split NL src) (Z.to_nat (line (err_loc e) - 1)) = Some lineText /\
    split NL (message e)
    = [ numToString (line (err_loc e)) ++ str ":"
        ++ numToString (column (err_loc e)) ++ str ": Unknown token";
        lineText;
        repeat " "%char (Z.to_nat (column (err_loc e) - 1)) ++ str "^" ].
Proof.
  unfold lex. destruct (buildLexerRegExp regExps) as [re| |]; try discriminate.
  intros H. apply lexLoop_Throw in H.
  destruct H as (toks & loc & Hs & _ & _ & He & _).
  apply steps_tracks in Hs; [|apply tracks_origin].
  destruct (newSyntaxError_tracked src loc (str "Unknown token") Hs)
    as (cur & _ & _ & Hnth & Hnew).
  rewrite Hnew in He. inversion He; subst e. cbn [err_loc message].
  eexists. split; [exact Hnth|].
  assert (Hl : oneLine (cur ++ firstLine (skipn (Z.to_nat (index loc)) src)) = true).
  { apply (split_lines_oneLine src). eapply nth_error_In. exact Hnth. }
  set (lineText := cur ++ firstLine (skipn (Z.to_nat (index loc)) src)) in *.
  match goal with
  | |- split NL ?m = _ =>
      replace m
        with ((numToString (line loc) ++ str ":" ++ numToString (column loc)
               ++ str ": Unknown token")
              ++ NL :: (lineText ++ NL
                        :: (repeat " "%char (Z.to_nat (column loc - 1))
                            ++ str "^")))
        by (rewrite <- !app_assoc; reflexivity)
  end.
  rewrite split_app_NL, split_app_NL, split_oneLine; auto.
  - rewrite oneLine_app, oneLine_repeat_space. reflexivity.
  - rewrite !oneLine_app, !oneLine_numToString. reflexivity.
Qed.

Lemma syntaxError_three_lines_witness :
  exists e,
    lex 3 (str "one + 42") idNumWs = Throw (LexSyntaxError e) /\
    List.length (split NL (message e)) = 3%nat.
Proof.
  exists (mkSyntaxError
            (str "1:5: Unknown token" ++ [NL] ++ str "one + 42" ++ [NL]
             ++ str "    ^")
            (mkLoc 4 1 5) (str "one + 42")).
  split; [vm_compute; reflexivity|].
  destruct (syntaxError_three_lines 3 (str "one + 42") idNumWs
              (mkSyntaxError
                 (str "1:5: Unknown token" ++ [NL] ++ str "one + 42" ++ [NL]
                  ++ str "    ^")
                 (mkLoc 4 1 5) (str "one + 42")))
    as (lineText & _ & H); [vm_compute; reflexivity|].
  rewrite H. reflexivity.
Defined.

(** ** What [lex] throws *)

Lemma buildLexerRegExp_names (e : jsstring * Pattern) (rest : PatternSet)
  (re : RegExp) :
  buildLexerRegExp (e :: rest) = Parsed re ->
  groupNames (disjunction (re_alts re)) <> [].
Proof.
  rewrite buildLexerRegExp_eq. intros H. apply newRegExp_Parsed in H.
  destruct H as (Hc & _ & _).
  destruct (join_groupText_head e rest) as (tail & E). rewrite E in Hc.
  rewrite groupNames_disjunction. now apply compileAlts_group_names in Hc.
Qed.

Lemma scan_named_Return (alts : list regex) (i : Z) (s : jsstring) :
  groupNames (disjunction alts) <> [] ->
  exists r, scan alts i s = Return r.
Proof.
  intros Hn. rewrite scan_eq.
  destruct (Nat.ltb (List.length s) (Z.to_nat i)); [now eexists|].
  destruct (matchRegex s (disjunction alts) _ _); [|now eexists].
  destruct (groupNames (disjunction alts)); [congruence | now eexists].
Qed.

Lemma lexLoop_no_TypeError (src : jsstring) (alts : list regex) :
  groupNames (disjunction alts) <> [] ->
  forall fuel re acc loc,
    re_alts re = alts ->
    lexLoop fuel src re acc loc <> Throw TypeError.
Proof.
  intros Hn fuel. induction fuel as [|fuel IH]; intros re acc loc Hre.
  - cbn [lexLoop]. destruct (index loc <? len src); discriminate.
  - rewrite lexLoop_unfold, Hre.
    destruct (index loc <? len src); [|discriminate].
    destruct (scan_named_Return alts (index loc) src Hn) as [[m|] ->].
    + apply IH. now rewrite matchNext_alts.
    + destruct (newSyntaxError_cases loc src (str "Unknown token"))
        as [[e ->]| ->]; discriminate.
Qed.

Lemma lexLoop_no_RangeError (src : jsstring) :
  forall fuel re acc loc,
    tracks src loc -> lexLoop fuel src re acc loc <> Throw RangeError.
Proof.
  induction fuel as [|fuel IH]; intros re acc loc Ht.
  - cbn [lexLoop]. destruct (index loc <? len src); discriminate.
  - rewrite lexLoop_unfold. destruct (index loc <? len src); [|discriminate].
    destruct (scan (re_alts re) (index loc) src) as [[m|]| | |] eqn:S;
      try discriminate.
    + apply IH. destruct (scan_advance _ _ _ _ (proj1 (proj1 Ht)) S).
      now apply tracks_next.
    + destruct (newSyntaxError_tracked src loc (str "Unknown token") Ht)
        as (cur & _ & _ & _ & ->). discriminate.
    + apply scan_Throw in S. subst. discriminate.
Qed.

Lemma join_groupText_kind (e : jsstring * Pattern) (rest : PatternSet) :
  exists tail,
    join (str "|") (map groupText (e :: rest))
    = "("%char :: "?"%char :: "<"%char :: (fst e ++ ">"%char :: tail).
Proof.
  destruct rest as [|e2 rest]; cbn [map].
  - cbn [join]. unfold groupText. cbn. now eexists.
  - rewrite join_cons2. unfold groupText at 1. cbn.
    rewrite <- app_assoc. cbn. rewrite <- app_assoc. now eexists.
Qed.

(** The first group of the pattern built for a set whose first kind is an
    identifier is the group of that kind. *)
Lemma buildLexerRegExp_first_name (e : jsstring * Pattern) (rest : PatternSet)
  (re : RegExp) :
  isIdentifier (fst e) = true ->
  buildLexerRegExp (e :: rest) = Parsed re ->
  hd_error (re_names re) = Some (fst e).
Proof.
  intros Hk H. rewrite buildLexerRegExp_eq in H.
  apply newRegExp_Parsed in H. destruct H as (Hc & _ & _).
  destruct (join_groupText_kind e rest) as (tail & E). rewrite E in Hc.
  destruct (fst e) as [|c k] eqn:K; [discriminate|].
  cbn [isIdentifier] in Hk. apply andb_true_iff in Hk. destruct Hk as [Hc0 Hk].
  unfold compileAlts, tokenize in Hc.
  apply pbind_Parsed in Hc. destruct Hc as (toks & Htok & Hparse).
  apply pbind_Parsed in Htok. destruct Htok as ([mode rts] & Hscan & Hfin).
  change (tscan (MNormal, []) ("("%char :: "?"%char :: "<"%char
                               :: ((c :: k) ++ ">"%char :: tail)))
    with (pbind (tstep (MParenQLt, []) c)
                (fun st => tscan st (k ++ ">"%char :: tail))) in Hscan.
  cbn [tstep] in Hscan.
  rewrite (isIdStart_not c "="%char Hc0 eq_refl),
          (isIdStart_not c "!"%char Hc0 eq_refl), Hc0 in Hscan.
  cbn [orb pbind] in Hscan. rewrite (tscan_name k _ Hk) in Hscan.
  cbn [tscan tstep] in Hscan. rewrite Ascii.eqb_refl in Hscan.
  cbn [pbind] in Hscan.
  replace (rev (rev k ++ [c])) with (c :: k) in Hscan
    by (now rewrite rev_app_distr, rev_involutive).
  apply tscan_extends in Hscan. destruct Hscan as (new & ->).
  destruct (tfinish_oldest (mode, new ++ [TOpen (Some (c :: k))])
              toks new _ eq_refl Hfin) as (toks' & ->).
  apply parseAlternatives_names in Hparse.
  unfold re_names, re_regex. rewrite Hparse. reflexivity.
Qed.

(** X7. With a pattern set whose first entry has an identifier as its
    kind, the first group of the combined pattern is the group of that
    kind, so [match.groups] is an object and [lex] never throws the
    [TypeError] of [Object.keys]; what [lex] throws is the constructor's
    error or its own [SyntaxError].  (A kind such as [!a] or [=a] makes
    the group a lookbehind; such kinds are excluded here.) *)
Theorem lex_no_TypeError (fuel : nat) (src : jsstring)
  (e : jsstring * Pattern) (rest : PatternSet) :
  isIdentifier (fst e) = true ->
  (forall re, buildLexerRegExp (e :: rest) = Parsed re ->
              hd_error (re_names re) = Some (fst e)) /\
  lex fuel src (e :: rest) <> Throw TypeError /\
  forall x, lex fuel src (e :: rest) = Throw x ->
            x = RegExpSyntaxError \/ exists err, x = LexSyntaxError err.
Proof.
  intros Hk.
  assert (N : forall re, buildLexerRegExp (e :: rest) = Parsed re ->
                         hd_error (re_names re) = Some (fst e))
    by (intros re; now apply buildLexerRegExp_first_name).
  assert (T : lex fuel src (e :: rest) <> Throw TypeError).
  { unfold lex.
    destruct (buildLexerRegExp (e :: rest)) as [re| |] eqn:B; try discriminate.
    apply (lexLoop_no_TypeError src (re_alts re)); [|reflexivity].
    specialize (N re eq_refl). unfold re_names, re_regex in N.
    intros Z. rewrite Z in N. discriminate. }
  split; [exact N|]. split; [exact T|]. intros x Hx.
  destruct x as [| | |err]; [now left | congruence | | right; now eexists].
  exfalso. unfold lex in Hx.
  destruct (buildLexerRegExp (e :: rest)) as [re| |]; try discriminate.
  exact (lexLoop_no_RangeError src fuel re [] origin (tracks_origin src) Hx).
Qed.

Lemma lex_no_TypeError_witness :
  lex 3 (str "one + 42") idNumWs <> Throw TypeError.
Proof.
  apply (lex_no_TypeError 3 (str "one + 42")
           (str "id", mkPattern (str "[a-zA-Z_][a-zA-Z0-9_]*"))
           [ (str "num", mkPattern (str "\d+"));
             (str "ws", mkPattern (str "\s+")) ]).
  reflexivity.
Defined.

(** ** Empty matches *)

Lemma steps_stuck (src : jsstring) (alts : list regex)
  (loc : Location) (toks : list Token) (loc' : Location) (m : Match) :
  steps src alts loc toks loc' ->
  index loc < len src ->
  scan alts (index loc) src = Return (Some m) ->
  text m = [] ->
  loc' = loc.
Proof.
  induction 1 as [loc | loc m0 toks loc' Hlt Hscan Hsteps IH];
    intros Hi Hm He; [reflexivity|].
  assert (m0 = m) by congruence. subst m0.
  rewrite He, nextLocation_nil in Hsteps, IH. now apply IH.
Qed.

Lemma steps_texts_nonempty (src : jsstring) (alts : list regex)
  (loc : Location) (toks : list Token) (loc' : Location) :
  steps src alts loc toks loc' ->
  len src <= index loc' ->
  Forall (fun t => tok_text t <> []) toks.
Proof.
  induction 1 as [loc | loc m toks loc' Hlt Hscan Hsteps IH]; intros Hend;
    constructor; [|now apply IH].
  cbn [tok_text]. intros He.
  assert (loc' = loc).
  { apply (steps_stuck src alts loc
             (mkToken (kind m) (text m) loc :: toks) loc' m); auto.
    econstructor; eauto. }
  subst loc'. lia.
Qed.

Lemma concat_length_ge (l : list jsstring) :
  Forall (fun t => t <> []) l ->
  (List.length l <= List.length (List.concat l))%nat.
Proof.
  induction 1 as [|t l Ht Hl IH]; [reflexivity|].
  cbn [List.concat List.length]. rewrite length_app.
  destruct t; [congruence | cbn [List.length]; lia].
Qed.

(** X8. No token of a sequence that [lex] returns has an empty text, and
    the sequence has at most as many tokens as the source has characters:
    after an empty match the loop can never reach the end of the source. *)
Theorem lex_tokens_nonempty (fuel : nat) (src : jsstring)
  (regExps : PatternSet) (tokens : list Token) :
  lex fuel src regExps = Return tokens ->
  Forall (fun t => tok_text t <> []) tokens /\
  (List.length tokens <= List.length src)%nat.
Proof.
  unfold lex. destruct (buildLexerRegExp regExps) as [re| |]; try discriminate.
  intros H. apply lexLoop_Return in H.
  destruct H as (toks & loc' & -> & Hs & Hend & _). cbn [app].
  pose proof (steps_texts_nonempty _ _ _ _ _ Hs Hend) as Hne.
  split; [exact Hne|].
  apply steps_covers in Hs; [|cbn; pose proof (len_nonneg src); lia].
  destruct Hs as [Hloc' Hcov]. cbn in Hcov.
  assert (Hall : List.concat (map tok_text toks) = src).
  { rewrite Hcov. apply firstn_all2. unfold len in *. lia. }
  rewrite <- Hall, <- (length_map tok_text toks).
  apply concat_length_ge. rewrite Forall_map. exact Hne.
Qed.

Lemma lex_tokens_nonempty_witness :
  exists tokens,
    lex 3 (str "one 42") idNumWs = Return tokens /\
    (List.length tokens <= 6)%nat.
Proof.
  eexists. split; [vm_compute; reflexivity|].
  apply (lex_tokens_nonempty 3 (str "one 42") idNumWs). vm_compute.
  reflexivity.
Defined.

Lemma lexLoop_stuck (src : jsstring) (alts : list regex) (loc : Location)
  (m : Match) :
  index loc < len src ->
  scan alts (index loc) src = Return (Some m) ->
  text m = [] ->
  forall fuel re acc,
    re_alts re = alts -> lexLoop fuel src re acc loc = OutOfFuel.
Proof.
  intros Hi Hm He fuel. induction fuel as [|fuel IH]; intros re acc Hre.
  - cbn [lexLoop]. destruct (index loc <? len src) eqn:E; [reflexivity | lia].
  - rewrite lexLoop_unfold, Hre, Hm.
    destruct (index loc <? len src) eqn:E; [|lia].
    rewrite He, nextLocation_nil. apply IH. now rewrite matchNext_alts.
Qed.

Lemma lexLoop_reaches_stuck (src : jsstring) (alts : list regex)
  (loc0 : Location) (toks : list Token) (loc : Location) (m : Match) :
  steps src alts loc0 toks loc ->
  index loc < len src ->
  scan alts (index loc) src = Return (Some m) ->
  text m = [] ->
  forall fuel re acc,
    re_alts re = alts -> lexLoop fuel src re acc loc0 = OutOfFuel.
Proof.
  induction 1 as [loc | loc0 m0 toks loc Hlt Hscan Hsteps IH];
    intros Hi Hm He fuel re acc Hre.
  - now apply (lexLoop_stuck src alts loc m).
  - destruct fuel as [|fuel].
    + cbn [lexLoop]. destruct (index loc0 <? len src) eqn:E; [reflexivity | lia].
    + rewrite lexLoop_unfold, Hre, Hscan.
      destruct (index loc0 <? len src) eqn:E; [|lia].
      apply IH; auto. now rewrite matchNext_alts.
Qed.

(** X9. One empty match is enough for [lex] to run forever: if the loop
    reaches a location before the end of the source where [matchNext]
    answers an empty text, the location never changes again and the loop
    is still running after any number of iterations. *)
Theorem lex_empty_match_diverges (src : jsstring) (regExps : PatternSet)
  (re : RegExp) (toks : list Token) (loc : Location) (m : Match) :
  buildLexerRegExp regExps = Parsed re ->
  steps src (re_alts re) origin toks loc ->
  index loc < len src ->
  fst (matchNext (index loc) src re) = Return (Some m) ->
  text m = [] ->
  nextLocation loc (text m) = loc /\
  forall fuel, lex fuel src regExps = OutOfFuel.
Proof.
  intros Hre Hs Hi Hm He. rewrite matchNext_scan in Hm.
  split; [rewrite He; apply nextLocation_nil|].
  intros fuel. unfold lex. rewrite Hre.
  now apply (lexLoop_reaches_stuck src (re_alts re) origin toks loc m).
Qed.

Lemma lex_empty_match_diverges_witness :
  nextLocation (mkLoc 1 1 2) [] = mkLoc 1 1 2 /\
  lex 7 (str "xy") [(str "a", mkPattern (str "x+|z*"))] = OutOfFuel.
Proof.
  destruct (buildLexerRegExp [(str "a", mkPattern (str "x+|z*"))])
    as [re| |] eqn:B; try (vm_compute in B; discriminate).
  assert (A : re_alts re
              = [RSeq (RGroup (Some (str "a"))
                         (RAlt (RSeq (RRepeat 1 None true (RSet (CSChar "x"))) REmpty)
                               (RSeq (RRepeat 0 None true (RSet (CSChar "z"))) REmpty)))
                      REmpty])
    by (vm_compute in B; now inversion B).
  destruct (lex_empty_match_diverges (str "xy") _ re
              [mkToken (Some (str "a")) (str "x") origin] (mkLoc 1 1 2)
              (mkMatchResult None []) B) as [H1 H2].
  - rewrite A.
    apply (steps_token _ _ origin (mkMatchResult (Some (str "a")) (str "x")));
      [reflexivity | reflexivity | apply steps_done].
  - reflexivity.
  - rewrite matchNext_scan, A. reflexivity.
  - reflexivity.
  - split; [exact H1 | exact (H2 7%nat)].
Defined.

(** ** The pattern built from a well-formed set *)

Lemma compileAlts_join (regExps : PatternSet) :
  regExps <> [] ->
  (forall e, In e regExps -> exists a, entryCompiles e a) ->
  exists alts,
    compileAlts (join (str "|") (map groupText regExps)) = Parsed alts /\
    Forall2 (fun e alt => exists a, entryCompiles e a /\ alt = entryAlt (fst e) a)
            regExps alts.
Proof.
  induction regExps as [|e rest IH]; [congruence|]. intros _ Hall.
  destruct (Hall e (or_introl eq_refl)) as (a & Hk & Ha).
  assert (H1 : compileAlts (groupText e) = Parsed [entryAlt (fst e) a]).
  { destruct e as [k p]. now apply compileAlts_groupText. }
  destruct rest as [|e2 rest].
  - exists [entryAlt (fst e) a]. split; [exact H1|].
    constructor; [|constructor]. exists a. now split.
  - destruct IH as (alts2 & Hc2 & HF); [discriminate | |].
    { intros e' He'. apply Hall. now right. }
    exists (entryAlt (fst e) a :: alts2). split.
    + cbn [map]. rewrite join_cons2, (compileAlts_bar _ _ _ H1).
      cbn [map] in Hc2. rewrite Hc2. reflexivity.
    + constructor; [|exact HF]. exists a. now split.
Qed.

Lemma earlyErrors_each (alts : list regex) :
  earlyErrors (disjunction alts) = Parsed tt ->
  forall alt, In alt alts -> earlyErrors alt = Parsed tt.
Proof.
  induction alts as [|a alts IH]; intros H alt Hin; [destruct Hin|].
  destruct alts as [|b alts].
  - destruct Hin as [<-|[]]. exact H.
  - change (a :: b :: alts) with ([a] ++ b :: alts) in H.
    apply earlyErrors_app in H; [|discriminate|discriminate].
    destruct H as [Ha Hb]. destruct Hin as [<-|Hin]; [exact Ha|].
    now apply IH.
Qed.

Lemma Forall2_In_l {A B} (R : A -> B -> Prop) (l : list A) (l' : list B) (x : A) :
  Forall2 R l l' -> In x l -> exists y, In y l' /\ R x y.
Proof.
  induction 1 as [|a b l l' Hab HF IH]; intros Hin; [destruct Hin|].
  destruct Hin as [<-|Hin].
  - exists b. split; [now left | exact Hab].
  - destruct (IH Hin) as (y & Hy & Hr). exists y. split; [now right | exact Hr].
Qed.

Lemma buildLexerRegExp_wellFormed (regExps : PatternSet) (re : RegExp) :
  regExps <> [] ->
  (forall e, In e regExps -> exists a, entryCompiles e a) ->
  buildLexerRegExp regExps = Parsed re ->
  Forall2 (fun e alt => exists a, entryCompiles e a /\ alt = entryAlt (fst e) a)
          regExps (re_alts re) /\
  forall e, In e regExps -> exists re1, buildLexerRegExp [e] = Parsed re1.
Proof.
  intros Hne Hall Hre. rewrite buildLexerRegExp_eq in Hre.
  apply newRegExp_Parsed in Hre. destruct Hre as (Hc & He & _).
  destruct (compileAlts_join regExps Hne Hall) as (alts & Hc' & HF).
  rewrite Hc in Hc'. inversion Hc' as [Halts]. rewrite <- Halts in HF.
  split; [exact HF|].
  intros e Hin.
  destruct (Forall2_In_l _ _ _ e HF Hin) as (alt & Halt & a & [Hk Ha] & ->).
  exists (mkRegExp [entryAlt (fst e) a] 0).
  rewrite buildLexerRegExp_eq. apply newRegExp_Parsed. cbn [re_alts lastIndex].
  split; [|split; [|reflexivity]].
  - cbn [map join]. destruct e as [k p]. now apply compileAlts_groupText.
  - exact (earlyErrors_each _ He _ Halt).
Qed.

(** X12. Take a pattern set with at least one entry, whose kinds are
    ASCII identifiers and whose sources are, each on its own, patterns of
    the fragment of Part 2 described at [entryCompiles] (so: no
    back-reference, lookaround, braces, [\b], [\x] or [\u] in a source),
    and suppose that the combined
    pattern compiles and that no two of its groups share a name.  Then the
    compiled pattern is the alternation, in the order of the set, of one
    named group per entry: the group of its kind around the pattern of its
    source; and every entry of the set compiles on its own as well. *)
Theorem buildLexerRegExp_alternatives (regExps : PatternSet) (re : RegExp) :
  regExps <> [] ->
  (forall e, In e regExps -> exists a, entryCompiles e a) ->
  buildLexerRegExp regExps = Parsed re ->
  NoDup (re_names re) ->
  Forall2 (fun e alt => exists a, entryCompiles e a /\ alt = entryAlt (fst e) a)
          regExps (re_alts re) /\
  List.length (re_alts re) = List.length regExps /\
  forall e, In e regExps -> exists re1, buildLexerRegExp [e] = Parsed re1.
Proof.
  intros Hne Hall Hre _.
  destruct (buildLexerRegExp_wellFormed regExps re Hne Hall Hre) as [HF Hs].
  split; [exact HF|]. split; [|exact Hs].
  symmetry. exact (Forall2_length HF).
Qed.

Lemma idNumWs_compiles (e : jsstring * Pattern) :
  In e idNumWs -> exists a, entryCompiles e a.
Proof.
  intros [<-|[<-|[<-|[]]]]; eexists; split; vm_compute; reflexivity.
Qed.

Lemma buildLexerRegExp_alternatives_witness :
  exists re,
    buildLexerRegExp idNumWs = Parsed re /\
    List.length (re_alts re) = 3%nat.
Proof.
  eexists. split; [vm_compute; reflexivity|].
  apply (buildLexerRegExp_alternatives idNumWs);
    [discriminate | exact idNumWs_compiles | vm_compute; reflexivity
    | vm_compute; repeat constructor; cbn; intuition discriminate].
Defined.

(** ** Kinds *)

Lemma scan_kind_of_entry (regExps : PatternSet) (re : RegExp) (i : Z)
  (s : jsstring) (m : Match) :
  buildLexerRegExp regExps = Parsed re ->
  (forall e, In e regExps -> exists a, entryCompiles e a) ->
  scan (re_alts re) i s = Return (Some m) ->
  text m <> [] ->
  exists e, In e regExps /\ kind m = Some (fst e).
Proof.
  intros Hre Hall Hm Hne.
  destruct regExps as [|e0 rest0] eqn:ER.
  { change (buildLexerRegExp []) with (Parsed (mkRegExp [REmpty] 0)) in Hre.
    inversion Hre; subst re. rewrite scan_eq in Hm.
    cbn [re_alts disjunction mkAlt matchRegex groupNames] in Hm.
    destruct (Nat.ltb (List.length s) (Z.to_nat i)); discriminate. }
  rewrite <- ER in *.
  assert (Hne' : regExps <> []) by (rewrite ER; discriminate).
  destruct (buildLexerRegExp_wellFormed regExps re Hne' Hall Hre) as [_ Hs].
  apply (matchNext_kind_is_key regExps re i s m Hre); auto.
  intros e He. destruct (Hall e He) as (a & Hk & Ha).
  split; [exact Hk|]. split; [now exists a | now apply Hs].
Qed.

(** X10. Take a pattern set whose kinds are ASCII identifiers and whose
    sources are, each on its own, patterns of the fragment of Part 2
    described at [entryCompiles] (so: no back-reference, lookaround,
    braces, [\b], [\x] or [\u] in a source), and suppose that the combined pattern compiles and that no
    two of its groups share a name (neither two kinds, nor a kind and a
    named group of a source, nor two named groups of the sources).  Then
    whenever [matchNext] answers a non-empty text, its kind is the kind of
    an entry of the set. *)
Theorem matchNext_kind_of_entry (regExps : PatternSet) (re : RegExp) (i : Z)
  (s : jsstring) (m : Match) :
  buildLexerRegExp regExps = Parsed re ->
  NoDup (re_names re) ->
  (forall e, In e regExps -> exists a, entryCompiles e a) ->
  fst (matchNext i s re) = Return (Some m) ->
  text m <> [] ->
  exists e, In e regExps /\ kind m = Some (fst e).
Proof.
  intros Hre _ Hall Hm Hne. rewrite matchNext_scan in Hm.
  now apply (scan_kind_of_entry regExps re i s m).
Qed.

Lemma matchNext_kind_of_entry_witness :
  exists e, In e idNumWs /\ Some (str "num") = Some (fst e).
Proof.
  destruct (buildLexerRegExp idNumWs) as [re| |] eqn:B;
    try (vm_compute in B; discriminate).
  apply (matchNext_kind_of_entry idNumWs re 4 (str "one 42")
           (mkMatchResult (Some (str "num")) (str "42")) B).
  - vm_compute in B. inversion B. vm_compute.
    repeat constructor; cbn; intuition discriminate.
  - exact idNumWs_compiles.
  - vm_compute in B. inversion B. vm_compute. reflexivity.
  - discriminate.
Defined.

Lemma steps_tokens_scanned (src : jsstring) (alts : list regex)
  (loc : Location) (toks : list Token) (loc' : Location) :
  steps src alts loc toks loc' ->
  Forall (fun t => exists m,
            scan alts (index (tok_loc t)) src = Return (Some m) /\
            tok_kind t = kind m /\ tok_text t = text m) toks.
Proof.
  induction 1 as [loc | loc m toks loc' Hlt Hscan Hsteps IH]; constructor;
    [|exact IH].
  exists m. cbn. auto.
Qed.

(** X11. Take a pattern set whose kinds are ASCII identifiers and whose
    sources are, each on its own, patterns of the fragment of Part 2
    described at [entryCompiles] (so: no back-reference, lookaround,
    braces, [\b], [\x] or [\u] in a source), and suppose that the combined pattern compiles and that no
    two of its groups share a name.  Then every token of a sequence that
    [lex] returns has the kind of an entry of the set: none has an
    undefined kind. *)
Theorem lex_token_kinds (fuel : nat) (src : jsstring) (regExps : PatternSet)
  (re : RegExp) (tokens : list Token) (t : Token) :
  buildLexerRegExp regExps = Parsed re ->
  NoDup (re_names re) ->
  (forall e, In e regExps -> exists a, entryCompiles e a) ->
  lex fuel src regExps = Return tokens ->
  In t tokens ->
  exists e, In e regExps /\ tok_kind t = Some (fst e).
Proof.
  intros B _ Hall. unfold lex. rewrite B.
  intros H Hin. apply lexLoop_Return in H.
  destruct H as (toks & loc' & -> & Hs & Hend & _). cbn [app] in Hin.
  pose proof (steps_texts_nonempty _ _ _ _ _ Hs Hend) as Hne.
  pose proof (steps_tokens_scanned _ _ _ _ _ Hs) as Hsc.
  rewrite Forall_forall in Hne, Hsc.
  destruct (Hsc t Hin) as (m & Hm & Hk & Ht).
  rewrite Hk. apply (scan_kind_of_entry regExps re _ src m B Hall Hm).
  rewrite <- Ht. now apply Hne.
Qed.

Lemma lex_token_kinds_witness :
  exists e, In e idNumWs /\ Some (str "ws") = Some (fst e).
Proof.
  destruct (buildLexerRegExp idNumWs) as [re| |] eqn:B;
    try (vm_compute in B; discriminate).
  apply (lex_token_kinds 3 (str "one 42") idNumWs re
           [mkToken (Some (str "id")) (str "one") (mkLoc 0 1 1);
            mkToken (Some (str "ws")) (str " ") (mkLoc 3 1 4);
            mkToken (Some (str "num")) (str "42") (mkLoc 4 1 5)]
           (mkToken (Some (str "ws")) (str " ") (mkLoc 3 1 4)) B).
  - vm_compute in B. inversion B. vm_compute.
    repeat constructor; cbn; intuition discriminate.
  - exact idNumWs_compiles.
  - vm_compute. reflexivity.
  - right; left; reflexivity.
Defined.

(** ** Pattern sets that always compile *)

Lemma kind_name_start_rejected_witness :
  buildLexerRegExp [(str "42", mkPattern (str "\d+")); (str "id", mkPattern (str "x"))]
  = Rejected.
Proof.
  apply (kind_name_start_rejected "4"%char (str "2")); reflexivity || discriminate.
Defined.

Lemma earlyErrors_no_names (r : regex) :
  groupNames r = [] -> earlyErrors r = Parsed tt.
Proof.
  induction r as [ | cs | a | r1 IH1 r2 IH2 | r1 IH1 r2 IH2
                 | min max greedy r1 IH1 | name r1 IH1 ];
    cbn [earlyErrors groupNames]; intros H; try reflexivity; auto.
  - apply app_eq_nil in H. destruct H as [H1 H2].
    rewrite (IH1 H1), (IH2 H2), H1. reflexivity.
  - apply app_eq_nil in H. destruct H as [H1 H2].
    rewrite (IH1 H1), (IH2 H2), H1. reflexivity.
  - destruct name; [discriminate | auto].
Qed.

Lemma entryAlt_names (k : jsstring) (a : list regex) :
  namesOf a = [] ->
  groupNames (entryAlt k a) = [k] /\ earlyErrors (entryAlt k a) = Parsed tt.
Proof.
  intros H. unfold entryAlt. cbn [groupNames earlyErrors].
  rewrite groupNames_disjunction, H.
  rewrite (earlyErrors_no_names (disjunction a))
    by (now rewrite groupNames_disjunction).
  split; reflexivity.
Qed.

Lemma earlyErrors_disjunction (alts : list regex) :
  Forall (fun alt => earlyErrors alt = Parsed tt) alts ->
  NoDup (namesOf alts) ->
  earlyErrors (disjunction alts) = Parsed tt.
Proof.
  induction 1 as [|a alts Ha Hall IH]; intros Hnd; [reflexivity|].
  destruct alts as [|b alts]; [exact Ha|].
  rewrite disjunction_cons. cbn [earlyErrors]. rewrite Ha. cbn [pbind].
  change (namesOf (a :: b :: alts))
    with (groupNames a ++ namesOf (b :: alts)) in Hnd.
  rewrite (IH (NoDup_app_remove_l _ _ Hnd)). cbn [pbind].
  rewrite groupNames_disjunction.
  assert (D : disjointb (groupNames a) (namesOf (b :: alts)) = true)
    by (apply disjointb_spec; now apply NoDup_app_disjoint).
  now rewrite D.
Qed.

Lemma wellFormed_alts (regExps : PatternSet) (alts : list regex) :
  Forall2 (fun e alt => exists a, entryCompiles e a /\ alt = entryAlt (fst e) a)
          regExps alts ->
  (forall e, In e regExps ->
             exists a, entryCompiles e a /\ namesOf a = []) ->
  Forall (fun alt => earlyErrors alt = Parsed tt) alts /\
  namesOf alts = map fst regExps.
Proof.
  induction 1 as [|e alt regExps alts (a' & [_ Ha'] & ->) HF IH]; intros Hall.
  - split; [constructor | reflexivity].
  - destruct (Hall e (or_introl eq_refl)) as (a & [_ Ha] & Hn).
    assert (a' = a) by congruence. subst a'.
    destruct (entryAlt_names (fst e) a Hn) as [N E].
    destruct IH as [IH1 IH2]; [intros e' He'; apply Hall; now right|].
    split; [now constructor|].
    change (namesOf (entryAlt (fst e) a :: alts))
      with (groupNames (entryAlt (fst e) a) ++ namesOf alts).
    rewrite N, IH2. reflexivity.
Qed.

Lemma lexLoop_throws (src : jsstring) :
  forall fuel re acc loc x,
    lexLoop fuel src re acc loc = Throw x -> x <> RegExpSyntaxError.
Proof.
  induction fuel as [|fuel IH]; intros re acc loc x H.
  - cbn [lexLoop] in H. destruct (index loc <? len src); discriminate.
  - rewrite lexLoop_unfold in H.
    destruct (index loc <? len src); [|discriminate].
    destruct (scan_cases (re_alts re) (index loc) src) as [[[m|] S]|S];
      rewrite S in H.
    + now apply IH in H.
    + destruct (newSyntaxError_cases loc src (str "Unknown token"))
        as [[e E]|E]; rewrite E in H; inversion H; discriminate.
    + inversion H. discriminate.
Qed.

(** X13. A pattern set with at least one entry, whose kinds are distinct
    ASCII identifiers and whose sources are, each on its own, patterns of
    the fragment of Part 2 described at [entryCompiles], without named
    groups (so: no back-reference, lookaround, braces, [\b], [\x] or
    [\u] in a source), always
    compiles: [buildLexerRegExp] returns a pattern whose group names are
    the kinds, in the order of the set, and [lex] does not throw the
    constructor's error, whatever the source. *)
Theorem buildLexerRegExp_succeeds (regExps : PatternSet) :
  regExps <> [] ->
  NoDup (map fst regExps) ->
  (forall e, In e regExps ->
             exists a, entryCompiles e a /\ namesOf a = []) ->
  (exists re,
     buildLexerRegExp regExps = Parsed re /\
     re_names re = map fst regExps) /\
  forall fuel src, lex fuel src regExps <> Throw RegExpSyntaxError.
Proof.
  intros Hne Hnd Hall.
  assert (Hall' : forall e, In e regExps -> exists a, entryCompiles e a).
  { intros e He. destruct (Hall e He) as (a & Ha & _). now exists a. }
  destruct (compileAlts_join regExps Hne Hall') as (alts & Hc & HF).
  destruct (wellFormed_alts regExps alts HF Hall) as [HE HN].
  assert (B : buildLexerRegExp regExps = Parsed (mkRegExp alts 0)).
  { rewrite buildLexerRegExp_eq. apply newRegExp_Parsed. cbn [re_alts lastIndex].
    split; [exact Hc|]. split; [|reflexivity].
    apply earlyErrors_disjunction; [exact HE|]. now rewrite HN. }
  split.
  - exists (mkRegExp alts 0). split; [exact B|].
    unfold re_names, re_regex. cbn [re_alts].
    now rewrite groupNames_disjunction.
  - intros fuel src. unfold lex. rewrite B. intros H.
    now apply lexLoop_throws in H.
Qed.

Lemma buildLexerRegExp_succeeds_witness :
  exists re,
    buildLexerRegExp idNumWs = Parsed re /\
    re_names re = [str "id"; str "num"; str "ws"].
Proof.
  apply (buildLexerRegExp_succeeds idNumWs).
  - discriminate.
  - repeat constructor; cbn; intuition discriminate.
  - intros e [<-|[<-|[<-|[]]]]; eexists; (split; [split|]); vm_compute;
      reflexivity.
Defined.
